(** * VoTales web client: story graph, golden path and reader state

    A shallow embedding of the decision logic of
    [src/components/StoryGraph.tsx] (golden path, view model, panel),
    [src/components/StoryNode.tsx] (the node on screen),
    [src/services/api.ts] (the story-map types),
    [src/components/ReaderView.tsx] (story-map fetch, vote mutation, vote
    clicks, pages of choices),
    [src/components/StoryActionBar.tsx] (the guard of the vote button),
    [src/components/TaleReader.tsx] (history and paragraphs of the plain
    reader) and
    [src/App.tsx] (the keyed route wrapper that mounts the reader).

    Conventions.
    - TypeScript [string] is [string]; a separator character is an [ascii].
      Splitting and joining on '-' act on code units, and '-' is one unit in
      every encoding involved, so the unit type does not matter here.
    - Vote counts are JavaScript numbers that the API fills with integers;
      they are integers [Z] here, negative ones included, so that every
      comparison the code performs is written out. Counts stay below
      10^21, where a template literal prints an integer in plain decimal.
    - A JavaScript [Map] iterates in insertion order and [set] on a present
      key keeps its position: it is an association list ([JsMap]).
    - A JavaScript [Set] that is only queried with [has], and the
      [Record<string, number>] overlay of the reader, are stdpp's [gset] and
      [gmap] (keys are tale ids; they are assumed not to shadow members of
      [Object.prototype]).
    - [undefined] / [null] for an optional field or prop is [None].
    - Asynchronous code is a transition system over the events of the
      single-threaded loop: a navigation, a click, the settling of a
      request. React state updaters are applied to the state at the time
      the event runs. *)

From Stdlib Require Import ZArith QArith Ascii.
From stdpp Require Import base strings list gmap fin_maps pretty.

Local Open Scope Z_scope.
Local Set Warnings "-clear-no-such-hyp".

(* ===================================================================== *)
(** ** JavaScript built-ins used by the components *)
(* ===================================================================== *)

Module Js.

(** *** [Map<string, V>] *)

Definition JsMap (V : Type) : Type := list (string * V).

Definition map_new {V} : JsMap V := [].

Fixpoint map_get {V} (m : JsMap V) (k : string) : option V :=
  match m with
  | [] => None
  | (k', v) :: m' => if decide (k' = k) then Some v else map_get m' k
  end.

Definition map_has {V} (m : JsMap V) (k : string) : bool :=
  bool_decide (is_Some (map_get m k)).

(** [m.set(k, v)]: overwrite in place when [k] is present, append otherwise. *)
Fixpoint map_set {V} (m : JsMap V) (k : string) (v : V) : JsMap V :=
  match m with
  | [] => [(k, v)]
  | (k', v') :: m' =>
      if decide (k' = k) then (k, v) :: m' else (k', v') :: map_set m' k v
  end.

(** [m.forEach((value, key) => ...)] threading the state the callback
    mutates. *)
Definition map_forEach {V S} (m : JsMap V) (f : V → string → S → S) (s : S) : S :=
  foldl (λ acc kv, f kv.2 kv.1 acc) s m.

(** [arr.forEach(x => ...)] threading the state the callback mutates. *)
Definition forEach {A S} (l : list A) (f : A → S → S) (s : S) : S :=
  foldl (λ acc x, f x acc) s l.

(** *** [Math.max(...xs)] on integers: [-Infinity] for no argument. *)

Inductive number : Type :=
| NegInfinity
| Int (z : Z).

Global Instance number_eq_dec : EqDecision number.
Proof. solve_decision. Defined.

Definition max2 (a : number) (x : Z) : number :=
  match a with
  | NegInfinity => Int x
  | Int y => Int (Z.max y x)
  end.

Definition Math_max (xs : list Z) : number := foldl max2 NegInfinity xs.

(** *** [s.split(sep)] for a one-character separator *)

Fixpoint split (sep : ascii) (s : string) : list string :=
  match s with
  | EmptyString => [EmptyString]
  | String c s' =>
      if decide (c = sep) then EmptyString :: split sep s'
      else match split sep s' with
           | [] => [String c EmptyString]
           | h :: t => String c h :: t
           end
  end.

(** [arr[0]] of an array of strings ([undefined] is not reached: [split]
    never returns an empty array, see [split_nonempty]). *)
Definition first (l : list string) : string := default EmptyString (head l).

(** [c] occurs in [s]. *)
Fixpoint occurs (c : ascii) (s : string) : bool :=
  match s with
  | EmptyString => false
  | String c' s' => if decide (c' = c) then true else occurs c s'
  end.

End Js.

(* ===================================================================== *)
(** ** [services/api.ts]: the story-map wire types *)
(* ===================================================================== *)

Module Api.

Inductive StoryMapNodeType : Type := ROOT | BRANCH | LEAF.

Global Instance StoryMapNodeType_eq_dec : EqDecision StoryMapNodeType.
Proof. solve_decision. Defined.

(** [label] and [isDeleted] are declared non-optional, but the graph
    component guards both ([||], [??]); an absent field is [None]. *)
Record StoryMapNode : Type := {
  id : string;
  label : option string;
  type : StoryMapNodeType;
  isDeleted : option bool;
}.

Record StoryMapEdge : Type := {
  sourceId : string;
  targetId : string;
  votes : Z;
}.

Global Instance StoryMapEdge_eq_dec : EqDecision StoryMapEdge.
Proof. solve_decision. Defined.

Record StoryMapResponse : Type := {
  nodes : list StoryMapNode;
  edges : list StoryMapEdge;
}.

End Api.

(* ===================================================================== *)
(** ** [components/StoryNode.tsx]: the custom graph node *)
(* ===================================================================== *)

Module StoryNode.

Record StoryNodeData : Type := {
  label : string;
  nodeType : Api.StoryMapNodeType;
  isCurrent : bool;
  isOnWinnerPath : bool;
  isDeleted : bool;
}.

(** The badge in the corner of a node: violet for ROOT, amber for LEAF. *)
Inductive TypeIndicator : Type := RootIndicator | LeafIndicator.

(** What the component puts on screen: the border classes, the dimming
    ([opacity-50]), the badge, the text of the label paragraph and its
    colour class. *)
Record View : Type := {
  borderClass : string;
  dimmed : bool;
  indicator : option TypeIndicator;
  text : string;
  textClass : string;
}.

(** [s || fallback] on strings: the empty string is falsy. *)
Definition or_else (s fallback : string) : string :=
  if decide (s = "") then fallback else s.

Definition getBorderClass (data : StoryNodeData) : string :=
  if isDeleted data then "border-dashed border-slate-600"
  else if isCurrent data then "border-violet-500 shadow-[0_0_15px_rgba(139,92,246,0.5)]"
  else if isOnWinnerPath data then "border-amber-400 shadow-[0_0_10px_rgba(251,191,36,0.3)]"
  else "border-slate-700".

Definition getTypeIndicator (data : StoryNodeData) : option TypeIndicator :=
  match nodeType data with
  | Api.ROOT => Some RootIndicator
  | Api.LEAF => Some LeafIndicator
  | Api.BRANCH => None
  end.

Definition render (data : StoryNodeData) : View :=
  {| borderClass := getBorderClass data;
     dimmed := isDeleted data;
     (* {!isDeleted && getTypeIndicator()} *)
     indicator := if negb (isDeleted data) then getTypeIndicator data else None;
     (* {isDeleted ? '[Deleted]' : (label || 'Untitled')} *)
     text := if isDeleted data then "[Deleted]" else or_else (label data) "Untitled";
     textClass := if isDeleted data then "text-slate-500" else "text-slate-200" |}.

End StoryNode.

(* ===================================================================== *)
(** ** [components/StoryGraph.tsx] *)
(* ===================================================================== *)

Module StoryGraph.

Import Js.

Record EdgeStyle : Type := {
  stroke : string;
  strokeWidth : Z;
}.

Definition getEdgeStyle (isWinner : bool) : EdgeStyle :=
  if isWinner then {| stroke := "#8b5cf6"; strokeWidth := 3 |}
  else {| stroke := "#334155"; strokeWidth := 1 |}.

(** The key under which an edge is entered in, and looked up from, the
    golden path: [`${sourceId}-${targetId}`]. *)
Definition edgeKey (sourceId targetId : string) : string :=
  sourceId +:+ "-" +:+ targetId.

(** First loop of [processGoldenPath]: group the edges by source. The array
    fetched from the map is the one pushed to and stored back. *)
Definition edgesBySource (edges : list Api.StoryMapEdge)
  : JsMap (list Api.StoryMapEdge) :=
  forEach edges
    (λ edge m,
       let group := default [] (map_get m (Api.sourceId edge)) in
       map_set m (Api.sourceId edge) (group ++ [edge]))
    map_new.

(** Body of the second loop, for one group. *)
Definition markGroup (sourceEdges : list Api.StoryMapEdge) (sourceId : string)
    (winners : JsMap string) : JsMap string :=
  let maxVotes := Math_max (Api.votes <$> sourceEdges) in
  if decide (maxVotes = Int 0) then winners
  else
    forEach sourceEdges
      (λ edge w,
         if decide (Int (Api.votes edge) = maxVotes)
         then map_set w (edgeKey sourceId (Api.targetId edge)) (Api.targetId edge)
         else w)
      winners.

Definition processGoldenPath (edges : list Api.StoryMapEdge) : JsMap string :=
  map_forEach (edgesBySource edges) markGroup map_new.

(** The nodes touched by the golden path, as the component collects them:
    the target is the value of the entry, the source is read back from the
    key with [edgeKey.split('-')[0]]. *)
Definition winnerNodes (goldenPath : JsMap string) : gset string :=
  map_forEach goldenPath
    (λ targetId key (acc : gset string),
       let sourceId := first (split "-" key) in
       (acc ∪ {[sourceId]}) ∪ {[targetId]})
    ∅.

Record Position : Type := { x : Q; y : Q }.

(** React Flow node and edge. The constant label styling of an edge
    ([labelStyle], [labelBgStyle], [labelBgPadding]) carries no decision and
    is left out. *)
Record Node : Type := {
  node_id : string;
  node_type : string;
  data : StoryNode.StoryNodeData;
  position : Position;
}.

Record Edge : Type := {
  edge_id : string;
  source : string;
  target : string;
  edge_type : string;
  style : EdgeStyle;
  animated : bool;
  edge_label : option string;
}.

Definition toNode (winners : gset string) (currentTaleId : option string)
    (node : Api.StoryMapNode) : Node :=
  {| node_id := Api.id node;
     node_type := "storyNode";
     data :=
       {| StoryNode.label := StoryNode.or_else (default "" (Api.label node)) "Untitled";
          StoryNode.nodeType := Api.type node;
          StoryNode.isCurrent := bool_decide (Some (Api.id node) = currentTaleId);
          StoryNode.isOnWinnerPath := bool_decide (Api.id node ∈ winners);
          StoryNode.isDeleted := default false (Api.isDeleted node) |};
     position := {| x := 0; y := 0 |} |}.

Definition toEdge (goldenPath : JsMap string) (edge : Api.StoryMapEdge) : Edge :=
  let key := edgeKey (Api.sourceId edge) (Api.targetId edge) in
  let isWinner := map_has goldenPath key in
  {| edge_id := "e-" +:+ Api.sourceId edge +:+ "-" +:+ Api.targetId edge;
     source := Api.sourceId edge;
     target := Api.targetId edge;
     edge_type := "smoothstep";
     style := getEdgeStyle isWinner;
     animated := isWinner;
     edge_label :=
       if bool_decide (0 < Api.votes edge) then Some (pretty (Api.votes edge))
       else None |}.

(** The first [useMemo]: [{ processedNodes, processedEdges }]. The guard
    [!mapData.nodes] is subsumed by the declared type of [nodes]. *)
Definition processed (mapData : option Api.StoryMapResponse)
    (currentTaleId : option string) : list Node * list Edge :=
  match mapData with
  | None => ([], [])
  | Some md =>
      if decide (length (Api.nodes md) = 0%nat) then ([], [])
      else
        let goldenPath := processGoldenPath (Api.edges md) in
        let winners := winnerNodes goldenPath in
        (toNode winners currentTaleId <$> Api.nodes md,
         toEdge goldenPath <$> Api.edges md)
  end.

Definition processedNodes mapData currentTaleId : list Node :=
  (processed mapData currentTaleId).1.

Definition processedEdges mapData currentTaleId : list Edge :=
  (processed mapData currentTaleId).2.

(** What the component returns. [Graph] carries the elements handed to
    React Flow and the node the viewport is asked to centre on. *)
Inductive Panel : Type :=
| Loading (message : string)
| Empty (message : string)
| Graph (isExpanded : bool) (nodes : list Node) (edges : list Edge)
        (centre : option string).

(** A prop or value used as a condition. *)
Definition truthy (b : option bool) : bool := default false b.

Section Layout.

(** The coordinates dagre assigns: [g.node(id)] after [dagre.layout(g)],
    for the graph built from the node ids (each a 180 x 50 box, rank
    direction LR, nodesep 60, ranksep 120) and the (source, target) pairs. *)
Variable dagre_node : list string → list (string * string) → string → Position.

Definition getLayoutedElements (nodes : list Node) (edges : list Edge)
  : list Node * list Edge :=
  let g := dagre_node (node_id <$> nodes) ((λ e, (source e, target e)) <$> edges) in
  ((λ node,
      let nodeWithPosition := g (node_id node) in
      {| node_id := node_id node;
         node_type := node_type node;
         data := data node;
         position := {| x := x nodeWithPosition - 90;
                        y := y nodeWithPosition - 25 |} |}) <$> nodes,
   edges).

(** The second [useMemo]. *)
Definition layouted (mapData : option Api.StoryMapResponse)
    (currentTaleId : option string) : list Node * list Edge :=
  let '(pn, pe) := processed mapData currentTaleId in
  if decide (length pn = 0%nat) then ([], []) else getLayoutedElements pn pe.

(** [CenterOnCurrentNode]: the node [fitView] is scheduled for, if any. *)
Definition centreTarget (currentTaleId : option string) (nodes : list Node)
  : option string :=
  match currentTaleId with
  | None => None
  | Some cur =>
      if decide (cur = "") then None
      else if decide (length nodes = 0%nat) then None
      else node_id <$> find (λ n, bool_decide (node_id n = cur)) nodes
  end.

(** The component, once the React Flow state has been synchronised with the
    layouted elements by its effect. *)
Definition StoryGraph (mapData : option Api.StoryMapResponse)
    (currentTaleId : option string) (isLoading : option bool)
    (isExpanded : bool) : Panel :=
  if truthy isLoading then Loading "Loading story map..."
  else if bool_decide (mapData = None)
          || bool_decide (length (processedNodes mapData currentTaleId) = 0%nat)
  then Empty "No story map available"
  else
    let '(ns, es) := layouted mapData currentTaleId in
    Graph isExpanded ns es (centreTarget currentTaleId ns).

End Layout.

End StoryGraph.

(* ===================================================================== *)
(** ** [components/ReaderView.tsx]: story-map fetch and vote mutation *)
(* ===================================================================== *)

Module ReaderView.

(** *** The story-map state and the fetches that write it *)

Record MapState : Type := {
  storyMapData : option Api.StoryMapResponse;
  isMapLoading : bool;
}.

(** The initial values of the two [useState] hooks. *)
Definition mountedMapState : MapState :=
  {| storyMapData := None; isMapLoading := false |}.

(** Which code issued a [getStoryMap] request: the effect on [id], or
    [handleContributionSuccess]. *)
Inductive Fetcher : Type := EffectFetch | RefetchAfterContribution.

Global Instance Fetcher_eq_dec : EqDecision Fetcher.
Proof. solve_decision. Defined.

(** [if (!id) return]: [undefined] and the empty string are falsy. *)
Definition requestable (id : option string) : option string :=
  match id with
  | Some i => if decide (i = "") then None else Some i
  | None => None
  end.

(** [fetchMapData] up to its [await]: the effect sets the loading flag,
    the refetch after a contribution sets nothing. *)
Definition fetchStarted (by_ : Fetcher) (s : MapState) : MapState :=
  match by_ with
  | EffectFetch => {| storyMapData := storyMapData s; isMapLoading := true |}
  | RefetchAfterContribution => s
  end.

(** [fetchMapData] after its [await] was fulfilled with [mapData]. *)
Definition fetchResolved (by_ : Fetcher) (mapData : Api.StoryMapResponse)
    (s : MapState) : MapState :=
  match by_ with
  | EffectFetch =>
      (* setStoryMapData(mapData); finally setIsMapLoading(false) *)
      {| storyMapData := Some mapData; isMapLoading := false |}
  | RefetchAfterContribution =>
      (* setStoryMapData(mapData) *)
      {| storyMapData := Some mapData; isMapLoading := isMapLoading s |}
  end.

(** [fetchMapData] after its [await] threw. *)
Definition fetchRejected (by_ : Fetcher) (s : MapState) : MapState :=
  match by_ with
  | EffectFetch =>
      (* catch: setStoryMapData(null); finally setIsMapLoading(false) *)
      {| storyMapData := None; isMapLoading := false |}
  | RefetchAfterContribution =>
      (* catch: console.error only *)
      s
  end.

(** *** The optimistic vote overlay *)

Record VoteState : Type := {
  votedTales : gset string;
  optimisticVotes : gmap string Z;
}.

Definition noVotes : VoteState := {| votedTales := ∅; optimisticVotes := ∅ |}.

(** [onMutate]: both functional updaters applied to the previous state. *)
Definition onMutate (taleId : string) (s : VoteState) : VoteState :=
  {| votedTales := votedTales s ∪ {[taleId]};
     optimisticVotes :=
       <[taleId := default 0 (optimisticVotes s !! taleId) + 1]> (optimisticVotes s) |}.

(** [onError]: the rollback. *)
Definition onError (taleId : string) (s : VoteState) : VoteState :=
  {| votedTales := votedTales s ∖ {[taleId]};
     optimisticVotes :=
       <[taleId := default 1 (optimisticVotes s !! taleId) - 1]> (optimisticVotes s) |}.

(** The overlay count as every reader of the overlay takes it:
    [optimisticVotes[taleId] ?? 0]. *)
Definition overlay (s : VoteState) (taleId : string) : Z :=
  default 0 (optimisticVotes s !! taleId).

(** The tale on display, as far as the appreciation bar reads it. *)
Record TaleData : Type := {
  tale_id : string;
  tale_votes : option Z;
  tale_hasVoted : bool;
}.

(** Props handed to [StoryActionBar]:
    [votes = (data.votes ?? 0) + (optimisticVotes[data.id] ?? 0)] and
    [hasVoted = data.hasVoted || votedTales.has(data.id)]. *)
Definition displayedVotes (data : TaleData) (s : VoteState) : Z :=
  default 0 (tale_votes data) + overlay s (tale_id data).

Definition displayedHasVoted (data : TaleData) (s : VoteState) : bool :=
  tale_hasVoted data || bool_decide (tale_id data ∈ votedTales s).

(** The count shown on the card of a choice:
    [choice.votes + (optimisticVotes[choice.id] ?? 0)]. *)
Definition displayedChoiceVotes (choice_id : string) (choice_votes : Z)
    (s : VoteState) : Z :=
  choice_votes + overlay s choice_id.

(** [handleVote]: prompt for login without a user, otherwise start the
    mutation unless the tale is already in the voted set. *)
Inductive VoteOutcome : Type :=
| ShowLoginPrompt
| Mutating (s : VoteState)
| AlreadyVoted.

Definition handleVote (signedIn : bool) (taleId : string) (s : VoteState)
  : VoteOutcome :=
  if negb signedIn then ShowLoginPrompt
  else if bool_decide (taleId ∈ votedTales s) then AlreadyVoted
  else Mutating (onMutate taleId s).

(** *** The life of vote mutations

    A click that passes [handleVote] runs [onMutate] and leaves a request
    pending; the request then fails ([onError]) or succeeds (no callback is
    registered for success). *)

Record VoteWorld : Type := {
  overlayState : VoteState;
  pendingVotes : gset string;
}.

Definition voteStart : VoteWorld :=
  {| overlayState := noVotes; pendingVotes := ∅ |}.

Inductive voteStep : VoteWorld → VoteWorld → Prop :=
| vote_clicked taleId w s' :
    handleVote true taleId (overlayState w) = Mutating s' →
    voteStep w {| overlayState := s';
                  pendingVotes := pendingVotes w ∪ {[taleId]} |}
| vote_failed taleId w :
    taleId ∈ pendingVotes w →
    voteStep w {| overlayState := onError taleId (overlayState w);
                  pendingVotes := pendingVotes w ∖ {[taleId]} |}
| vote_succeeded taleId w :
    taleId ∈ pendingVotes w →
    voteStep w {| overlayState := overlayState w;
                  pendingVotes := pendingVotes w ∖ {[taleId]} |}.

Definition voteReachable (w : VoteWorld) : Prop := rtc voteStep voteStart w.

End ReaderView.

(* ===================================================================== *)
(** ** [App.tsx]: the routes, and the reader they mount *)
(* ===================================================================== *)

Module App.

Import ReaderView.

(** [AnimatedRoutes] renders the routes inside an element with
    [key={location.pathname}]: when the pathname changes the page under it
    is unmounted and a new instance is mounted with fresh state. A
    [ReaderView] therefore sees one pathname, and one [id], while it is
    mounted; the state setters of an unmounted instance change nothing. *)

Record Reader : Type := {
  reader_id : option string;   (* useParams().id *)
  mapState : MapState;
}.

(** A request for a story map, with the page instance that issued it. *)
Definition Request : Type := nat * Fetcher * string.

Record State : Type := {
  pathname : option string; (* location.pathname, the key of the page *)
  instance : nat;           (* the number of the page instance now mounted *)
  reader : option Reader;   (* [Some] when that page is the reader *)
  inFlight : list Request;  (* requests issued and not settled yet *)
}.

(** Before the first page is mounted. *)
Definition start : State :=
  {| pathname := None; instance := 0; reader := None; inFlight := [] |}.

Inductive Event : Type :=
| Navigate (pathname : string)
| ContributionSucceeded
| Resolved (instance : nat) (by_ : Fetcher) (id : string)
           (mapData : Api.StoryMapResponse)
| Rejected (instance : nat) (by_ : Fetcher) (id : string).

(** Remove the first occurrence of a settled request; [None] when no such
    request is in flight. *)
Fixpoint settle (r : Request) (l : list Request) : option (list Request) :=
  match l with
  | [] => None
  | r' :: l' => if decide (r' = r) then Some l' else (r' ::.) <$> settle r l'
  end.

(** The [id] that the route "/tale/:id" reads from a pathname: the text
    after "/tale/" when it is not empty and has no further "/". *)
Definition taleParam (pathname : string) : option string :=
  match pathname with
  | String "/" (String "t" (String "a" (String "l" (String "e" (String "/" rest))))) =>
      if decide (rest = "") then None
      else if Js.occurs "/" rest then None
      else Some rest
  | _ => None
  end.

Section Routes.

(** The statements hold for any way of reading the parameter from the
    pathname; [taleParam] is one. *)
Variable param : string → option string.

(** Mount the page for a new pathname and run its effects. *)
Definition mount (p : string) (st : State) : State :=
  let n := S (instance st) in
  match param p with
  | None =>
      {| pathname := Some p; instance := n; reader := None;
         inFlight := inFlight st |}
  | Some i =>
      match requestable (Some i) with
      | None =>
          {| pathname := Some p; instance := n;
             reader := Some {| reader_id := Some i; mapState := mountedMapState |};
             inFlight := inFlight st |}
      | Some i' =>
          {| pathname := Some p; instance := n;
             reader := Some {| reader_id := Some i;
                               mapState := fetchStarted EffectFetch mountedMapState |};
             inFlight := inFlight st ++ [(n, EffectFetch, i')] |}
      end
  end.

(** Apply a state update of page instance [k]: it reaches the reader only
    when that instance is the mounted one. *)
Definition update (k : nat) (f : MapState → MapState) (st : State)
  : option Reader :=
  if decide (k = instance st)
  then (λ r, {| reader_id := reader_id r; mapState := f (mapState r) |}) <$> reader st
  else reader st.

Definition step (st : State) (e : Event) : option State :=
  match e with
  | Navigate p =>
      if decide (Some p = pathname st) then Some st else Some (mount p st)
  | ContributionSucceeded =>
      match reader st with
      | None => None
      | Some r =>
          match requestable (reader_id r) with
          | None => Some st
          | Some i =>
              Some {| pathname := pathname st; instance := instance st;
                      reader := update (instance st)
                                  (fetchStarted RefetchAfterContribution) st;
                      inFlight := inFlight st
                                  ++ [(instance st, RefetchAfterContribution, i)] |}
          end
      end
  | Resolved k by_ i mapData =>
      l ← settle (k, by_, i) (inFlight st);
      Some {| pathname := pathname st; instance := instance st;
              reader := update k (fetchResolved by_ mapData) st;
              inFlight := l |}
  | Rejected k by_ i =>
      l ← settle (k, by_, i) (inFlight st);
      Some {| pathname := pathname st; instance := instance st;
              reader := update k (fetchRejected by_) st;
              inFlight := l |}
  end.

(** A sequence of events, in the order the event loop runs them; [None]
    when an event cannot happen where it stands. *)
Fixpoint run (st : State) (es : list Event) : option State :=
  match es with
  | [] => Some st
  | e :: es' => st' ← step st e; run st' es'
  end.

End Routes.

End App.

(* ===================================================================== *)
(** ** Notions the statements are phrased with *)
(* ===================================================================== *)

Module Notions.

(** [m] is the greatest element of [l]. *)
Definition is_max (m : Z) (l : list Z) : Prop := m ∈ l ∧ ∀ x, x ∈ l → x ≤ m.

(** The input edges that share the source [s], in input order. *)
Definition group (s : string) (edges : list Api.StoryMapEdge)
  : list Api.StoryMapEdge :=
  filter (λ e, Api.sourceId e = s) edges.

(** The key of an edge, as the component computes it. *)
Definition keyOf (e : Api.StoryMapEdge) : string :=
  StoryGraph.edgeKey (Api.sourceId e) (Api.targetId e).

(** An edge is marked as a winner when the golden path has its key: this is
    the test the component applies to every edge it renders. *)
Definition isWinner (edges : list Api.StoryMapEdge) (e : Api.StoryMapEdge) : bool :=
  Js.map_has (StoryGraph.processGoldenPath edges) (keyOf e).

(** The winner set: the keys of the golden path, as a set. *)
Definition winnerKeys (edges : list Api.StoryMapEdge) : gset string :=
  list_to_set (StoryGraph.processGoldenPath edges).*1.

(** The edge owes its place on the golden path to its own votes: they are
    the maximum of its group, and that maximum is not zero. *)
Definition topVoted (edges : list Api.StoryMapEdge) (e : Api.StoryMapEdge) : Prop :=
  is_max (Api.votes e) (Api.votes <$> group (Api.sourceId e) edges)
  ∧ Api.votes e ≠ 0.

(** A group filed under [s] contributes the key [k]: its maximum is not
    zero and [k] is the key of one of its edges with that many votes. *)
Definition contributes (g : list Api.StoryMapEdge) (s k : string) : Prop :=
  Js.Math_max (Api.votes <$> g) ≠ Js.Int 0
  ∧ ∃ e, e ∈ g ∧ Js.Int (Api.votes e) = Js.Math_max (Api.votes <$> g)
         ∧ k = StoryGraph.edgeKey s (Api.targetId e).

(** What a render edge [r] shows of its input edge [e]: the same ends, and
    as label the decimal text of the vote count when that is greater than
    zero, nothing otherwise. *)
Definition rendersEdge (e : Api.StoryMapEdge) (r : StoryGraph.Edge) : Prop :=
  StoryGraph.source r = Api.sourceId e
  ∧ StoryGraph.target r = Api.targetId e
  ∧ StoryGraph.edge_label r
    = (if decide (0 < Api.votes e) then Some (pretty (Api.votes e)) else None)
  ∧ (is_Some (StoryGraph.edge_label r) ↔ 0 < Api.votes e)
  ∧ (Api.votes e = 0 → StoryGraph.edge_label r = None)
  ∧ StoryGraph.edge_label r ≠ Some "0"
  ∧ ∀ v : Z, StoryGraph.edge_label r = Some (pretty v) → v = Api.votes e.

(** The overlay of the reader in any state its handlers can reach: a tale
    counts one optimistic vote exactly while it is in the voted set, and
    every pending vote is in the voted set. *)
Definition voteInvariant (w : ReaderView.VoteWorld) : Prop :=
  (∀ t, ReaderView.overlay (ReaderView.overlayState w) t
        = if decide (t ∈ ReaderView.votedTales (ReaderView.overlayState w))
          then 1 else 0)
  ∧ ReaderView.pendingVotes w ⊆ ReaderView.votedTales (ReaderView.overlayState w).

(** Requests carry the number of a page instance that has been mounted,
    and those of the mounted instance are for the tale it displays. *)
Definition fetchInvariant (st : App.State) : Prop :=
  (∀ k f i, (k, f, i) ∈ App.inFlight st → (k ≤ App.instance st)%nat)
  ∧ (∀ f i, (App.instance st, f, i) ∈ App.inFlight st →
       ∃ r, App.reader st = Some r ∧ App.reader_id r = Some i).

(** The story map on display was the answer, received in the course of
    [trace], to a request that the reader on display made for the tale on
    display. *)
Definition shownWasFetched (trace : list App.Event) (st : App.State) : Prop :=
  ∀ r d, App.reader st = Some r →
    ReaderView.storyMapData (App.mapState r) = Some d →
    ∃ f i, App.Resolved (App.instance st) f i d ∈ trace
           ∧ App.reader_id r = Some i.

End Notions.

(* ===================================================================== *)
(** ** More built-ins: splitting on a two-character separator *)
(* ===================================================================== *)

Module JsText.

(** Put [c] in front of the first piece. *)
Definition cons_head (c : ascii) (l : list string) : list string :=
  match l with
  | [] => [String c EmptyString]
  | h :: t => String c h :: t
  end.

(** [s.split(sep)] for the separator made of the two characters [c1 c2]:
    occurrences are found from the left and do not overlap. *)
Fixpoint split2 (c1 c2 : ascii) (s : string) : list string :=
  match s with
  | EmptyString => [EmptyString]
  | String a s' =>
      match s' with
      | String b s'' =>
          if decide (a = c1 ∧ b = c2) then EmptyString :: split2 c1 c2 s''
          else cons_head a (split2 c1 c2 s')
      | EmptyString => [String a EmptyString]
      end
  end.

(** The line feed of ['\n']. *)
Definition LF : ascii := "010"%char.

End JsText.

(* ===================================================================== *)
(** ** [components/StoryActionBar.tsx]: the vote button *)
(* ===================================================================== *)

Module StoryActionBar.



End StoryActionBar.

(* ===================================================================== *)
(** ** [components/ReaderView.tsx]: the page around the tale *)
(* ===================================================================== *)

Module ReaderPage.

Import ReaderView.

Record TaleChoice : Type := {
  choice_id : string;
  choice_title : option string;
  choice_votes : Z;
  previewText : string;
}.

(** The tale as the page reads it. [choices] and [totalChoices] are
    declared non-optional, but the page guards both ([||], [?.]). *)
Record TaleResponse : Type := {
  tale : TaleData;
  isDeleted : bool;
  choices : option (list TaleChoice);
  totalChoices : option Z;
}.

(** A number used as a condition or on the left of [||]: zero is falsy. *)
Definition truthyNumber (n : option Z) : option Z :=
  match n with
  | Some z => if decide (z = 0) then None else Some z
  | None => None
  end.

(** *** The appreciation bar and the hearts on the choice cards *)




(** *** The choices on display and their pages *)

Record Choices : Type := {
  displayedChoices : list TaleChoice;
  choicesPage : Z;
  isLoadingMoreChoices : bool;
  shownTotal : Z;               (* the state [totalChoices] *)
}.

(** The initial values of the four [useState] hooks. *)
Definition mountedChoices : Choices :=
  {| displayedChoices := []; choicesPage := 1;
     isLoadingMoreChoices := false; shownTotal := 0 |}.

(** The effect on [data]: runs when the tale data arrives or changes. *)
Definition taleLoaded (data : TaleResponse) (c : Choices) : Choices :=
  {| displayedChoices := default [] (choices data);
     (* data.totalChoices || data.choices?.length || 0 *)
     shownTotal :=
       match truthyNumber (totalChoices data) with
       | Some n => n
       | None =>
           match truthyNumber ((λ l, Z.of_nat (length l)) <$> choices data) with
           | Some n => n
           | None => 0
           end
       end;
     choicesPage := 1;
     isLoadingMoreChoices := isLoadingMoreChoices c |}.

(** The choices section is rendered when there is a choice on display, and
    the "Show more options..." button inside it when the total exceeds the
    number on display. *)
Definition showsChoices (c : Choices) : bool :=
  bool_decide (0 < length (displayedChoices c))%nat.

Definition showsMoreButton (c : Choices) : bool :=
  showsChoices c
  && bool_decide (Z.of_nat (length (displayedChoices c)) < shownTotal c).

(** The "Perhaps you could write what happens next?" section. *)
Definition showsEndOfStory (c : Choices) : bool :=
  bool_decide (length (displayedChoices c) = 0%nat).

(** The page with the requests for further pages that have not settled,
    each with the page number it asked for. *)
Record Pager : Type := {
  shown : Choices;
  requested : list Z;
}.

Definition mountedPager : Pager := {| shown := mountedChoices; requested := [] |}.

Inductive PagerEvent : Type :=
| TaleLoaded (data : TaleResponse)
| LoadMoreClicked
| PageResolved (page : Z) (items : list TaleChoice)
| PageRejected (page : Z).

(** Remove the first occurrence of a settled request. *)
Fixpoint settlePage (n : Z) (l : list Z) : option (list Z) :=
  match l with
  | [] => None
  | n' :: l' => if decide (n' = n) then Some l' else (n' ::.) <$> settlePage n l'
  end.

(** One event of the pager of a reader whose route parameter is [id]. *)
Definition pagerStep (id : option string) (p : Pager) (e : PagerEvent)
  : option Pager :=
  match e with
  | TaleLoaded data =>
      Some {| shown := taleLoaded data (shown p); requested := requested p |}
  | LoadMoreClicked =>
      (* if (!id || isLoadingMoreChoices) return *)
      match requestable id with
      | None => Some p
      | Some _ =>
          if isLoadingMoreChoices (shown p) then Some p
          else
            (* setIsLoadingMoreChoices(true); nextPage = choicesPage + 1 *)
            Some {| shown :=
                      {| displayedChoices := displayedChoices (shown p);
                         choicesPage := choicesPage (shown p);
                         isLoadingMoreChoices := true;
                         shownTotal := shownTotal (shown p) |};
                    requested := requested p ++ [choicesPage (shown p) + 1] |}
      end
  | PageResolved nextPage items =>
      l ← settlePage nextPage (requested p);
      (* setDisplayedChoices(prev => [...prev, ...response.items]);
         setChoicesPage(nextPage); finally setIsLoadingMoreChoices(false) *)
      Some {| shown :=
                {| displayedChoices := displayedChoices (shown p) ++ items;
                   choicesPage := nextPage;
                   isLoadingMoreChoices := false;
                   shownTotal := shownTotal (shown p) |};
              requested := l |}
  | PageRejected nextPage =>
      l ← settlePage nextPage (requested p);
      (* catch: console.error; finally setIsLoadingMoreChoices(false) *)
      Some {| shown :=
                {| displayedChoices := displayedChoices (shown p);
                   choicesPage := choicesPage (shown p);
                   isLoadingMoreChoices := false;
                   shownTotal := shownTotal (shown p) |};
              requested := l |}
  end.

Fixpoint pagerRun (id : option string) (p : Pager) (es : list PagerEvent)
  : option Pager :=
  match es with
  | [] => Some p
  | e :: es' => p' ← pagerStep id p e; pagerRun id p' es'
  end.

(** *** The story-map panel *)

Section Panel.

Variable dagre_node :
  list string → list (string * string) → string → StoryGraph.Position.

(** [<StoryGraph mapData={storyMapData} currentTaleId={currentTaleId}
    isLoading={isMapLoading} .../>] with [currentTaleId = id || '']. *)
Definition graphPanel (id : option string) (m : MapState) (isExpanded : bool)
  : StoryGraph.Panel :=
  let currentTaleId :=
    match id with
    | Some i => if decide (i = "") then "" else i
    | None => ""
    end in
  StoryGraph.StoryGraph dagre_node (storyMapData m) (Some currentTaleId)
    (Some (isMapLoading m)) isExpanded.

End Panel.

End ReaderPage.

(* ===================================================================== *)
(** ** [components/TaleReader.tsx]: the reader with a history *)
(* ===================================================================== *)

Module TaleReader.

Record State : Type := {
  currentTaleId : string;
  taleHistory : list string;
}.

(** [initialTaleId = ''] by default; the history starts empty. *)
Definition mounted (initialTaleId : option string) : State :=
  {| currentTaleId := default "" initialTaleId; taleHistory := [] |}.

Definition handleChoiceClick (choiceId : string) (s : State) : State :=
  {| currentTaleId := choiceId;
     taleHistory := taleHistory s ++ [currentTaleId s] |}.

Definition handleGoBack (s : State) : State :=
  if bool_decide (0 < length (taleHistory s))%nat then
    match taleHistory s !! (length (taleHistory s) - 1)%nat with
    | Some previousTale =>
        {| currentTaleId := previousTale;
           (* taleHistory.slice(0, -1) *)
           taleHistory := take (length (taleHistory s) - 1) (taleHistory s) |}
    | None => s
    end
  else s.

(** The "Go Back" button is rendered when the history is not empty. *)
Definition showsGoBack (s : State) : bool :=
  bool_decide (0 < length (taleHistory s))%nat.

(** [data?.content.split('\n\n')]: one paragraph element per piece. *)
Definition paragraphs (content : string) : list string :=
  JsText.split2 JsText.LF JsText.LF content.

End TaleReader.

(* ===================================================================== *)
(** ** Further notions the statements are phrased with *)
(* ===================================================================== *)

Module MoreNotions.

(** The pieces put back together with the separator [c1 c2] between
    them. *)
Fixpoint join2 (c1 c2 : ascii) (l : list string) : string :=
  match l with
  | [] => EmptyString
  | [x] => x
  | x :: l' => x +:+ String c1 (String c2 (join2 c1 c2 l'))
  end.

(** [c1 c2] occurs in [s]. *)
Fixpoint contains2 (c1 c2 : ascii) (s : string) : bool :=
  match s with
  | EmptyString => false
  | String a s' =>
      match s' with
      | String b _ =>
          if decide (a = c1 ∧ b = c2) then true else contains2 c1 c2 s'
      | EmptyString => false
      end
  end.

(** The requests of the effect of the mounted reader that are in flight. *)
Definition effectFetches (st : App.State) : list App.Request :=
  filter (λ r, r.1 = (App.instance st, ReaderView.EffectFetch)) (App.inFlight st).

(** The loading flag of the mounted reader; [false] without a reader. *)
Definition mapLoading (st : App.State) : bool :=
  from_option (λ r, ReaderView.isMapLoading (App.mapState r)) false (App.reader st).

(** The loading flag is set exactly while the one request of the effect of
    the mounted reader is in flight. *)
Definition loadingInvariant (st : App.State) : Prop :=
  length (effectFetches st) = (if mapLoading st then 1 else 0)%nat.

(** The pager is idle with nothing requested, or loading with exactly one
    page requested. *)
Definition pagerSettled (p : ReaderPage.Pager) : Prop :=
  if ReaderPage.isLoadingMoreChoices (ReaderPage.shown p)
  then ∃ n, ReaderPage.requested p = [n]
  else ReaderPage.requested p = [].

(** The pager is idle with nothing requested, or loading with the page
    after the current one requested. *)
Definition pagerInStep (p : ReaderPage.Pager) : Prop :=
  if ReaderPage.isLoadingMoreChoices (ReaderPage.shown p)
  then ReaderPage.requested p = [ReaderPage.choicesPage (ReaderPage.shown p) + 1]
  else ReaderPage.requested p = [].

(** The page events other than the arrival of tale data. *)
Definition isPaging (e : ReaderPage.PagerEvent) : Prop :=
  match e with ReaderPage.TaleLoaded _ => False | _ => True end.

(** The items of the pages that arrived, in order of arrival. *)
Fixpoint arrivedItems (es : list ReaderPage.PagerEvent)
  : list ReaderPage.TaleChoice :=
  match es with
  | [] => []
  | ReaderPage.PageResolved _ items :: es' => items ++ arrivedItems es'
  | _ :: es' => arrivedItems es'
  end.

(** The numbers of the pages that arrived, in order of arrival. *)
Fixpoint arrivedPages (es : list ReaderPage.PagerEvent) : list Z :=
  match es with
  | [] => []
  | ReaderPage.PageResolved n _ :: es' => n :: arrivedPages es'
  | _ :: es' => arrivedPages es'
  end.

(** [n], [n + 1], ... for [k] numbers. *)
Fixpoint countFrom (n : Z) (k : nat) : list Z :=
  match k with
  | O => []
  | S k' => n :: countFrom (n + 1) k'
  end.

End MoreNotions.

(* ===================================================================== *)
(** ** Facts about the JavaScript built-ins *)
(* ===================================================================== *)

Section JsMapFacts.
Import Js.
Context {V : Type}.
Implicit Types (m : JsMap V) (k : string) (v : V).

Lemma map_get_set_eq m k v : map_get (map_set m k v) k = Some v.
Proof.
  induction m as [|[k' v'] m IH]; simpl.
  - by rewrite decide_True.
  - destruct (decide (k' = k)) as [->|Hne]; simpl.
    + by rewrite decide_True.
    + by rewrite decide_False.
Qed.

Lemma map_get_set_ne m k k' v :
  k ≠ k' → map_get (map_set m k v) k' = map_get m k'.
Proof.
  intros Hne. induction m as [|[k0 v0] m IH]; simpl.
  - by rewrite decide_False.
  - destruct (decide (k0 = k)) as [->|Hk0]; simpl.
    + by rewrite !decide_False.
    + by rewrite IH.
Qed.

Lemma map_get_set m k k' v :
  map_get (map_set m k v) k' = if decide (k = k') then Some v else map_get m k'.
Proof.
  destruct (decide (k = k')) as [->|Hne].
  - apply map_get_set_eq.
  - by apply map_get_set_ne.
Qed.

Lemma map_has_true m k : map_has m k = true ↔ is_Some (map_get m k).
Proof. unfold map_has. by rewrite bool_decide_eq_true. Qed.

Lemma map_has_set m k k' v :
  map_has (map_set m k v) k' = true ↔ k = k' ∨ map_has m k' = true.
Proof.
  rewrite !map_has_true, map_get_set.
  destruct (decide (k = k')) as [Heq|Hne].
  - split; [by left | by eexists].
  - split; [by right | by intros [?|?]].
Qed.

Lemma map_has_new k : map_has (@map_new V) k = false.
Proof. done. Qed.

(** The keys of a map after [set]: unchanged when the key is present,
    extended at the end otherwise. *)
Lemma map_set_keys m k v :
  (map_set m k v).*1 = if decide (k ∈ m.*1) then m.*1 else m.*1 ++ [k].
Proof.
  induction m as [|[k' v'] m IH].
  - destruct (decide (k ∈ (@nil (string * V)).*1)) as [Hin|Hin]; [|done].
    by apply elem_of_nil in Hin.
  - cbn [map_set]. destruct (decide (k' = k)) as [->|Hne].
    + destruct (decide (k ∈ ((k, v') :: m).*1)) as [Hin|Hin]; [done |].
      exfalso. apply Hin. by left.
    + rewrite !fmap_cons, IH. cbn [fst].
      destruct (decide (k ∈ m.*1)) as [Hin|Hin];
        destruct (decide (k ∈ k' :: m.*1)) as [Hin'|Hin']; try done.
      * exfalso. apply Hin'. by right.
      * apply elem_of_cons in Hin' as [?|?]; congruence.
Qed.

Lemma map_set_NoDup m k v : NoDup m.*1 → NoDup (map_set m k v).*1.
Proof.
  intros Hnd. rewrite map_set_keys. case_decide; [done |].
  apply NoDup_app. split_and!; [done | | apply NoDup_singleton].
  intros x Hx ->%list_elem_of_singleton. done.
Qed.

Lemma map_get_Some_elem m k v : map_get m k = Some v → (k, v) ∈ m.
Proof.
  induction m as [|[k' v'] m IH]; simpl; [done |].
  case_decide as Hk.
  - intros [= <-]. subst. by left.
  - intros ?. right. by apply IH.
Qed.

Lemma map_get_None_keys m k : map_get m k = None ↔ k ∉ m.*1.
Proof.
  induction m as [|[k' v'] m IH]; simpl.
  - split; [intros _ ?%elem_of_nil; done | done].
  - case_decide as Hk.
    + split; [done |]. intros []. subst; by left.
    + rewrite IH, not_elem_of_cons. split; [by intros ? | by intros [_ ?]].
Qed.

Lemma elem_map_get m k v : NoDup m.*1 → (k, v) ∈ m → map_get m k = Some v.
Proof.
  induction m as [|[k' v'] m IH]; simpl; intros Hnd Hin.
  - by apply elem_of_nil in Hin.
  - apply NoDup_cons in Hnd as [Hk' Hnd].
    apply elem_of_cons in Hin as [[= <- <-]|Hin].
    + by rewrite decide_True.
    + rewrite decide_False; [by apply IH |].
      intros ->. apply Hk'. apply list_elem_of_fmap. by exists (k, v).
Qed.

End JsMapFacts.

Section MathMaxFacts.
Import Js Notions.

Lemma foldl_max2_Int (a : Z) (l : list Z) :
  ∃ m, foldl max2 (Int a) l = Int m ∧ is_max m (a :: l).
Proof.
  revert a. induction l as [|x l IH]; intros a; simpl.
  - exists a. split; [done |]. split; [by left |].
    intros y ->%list_elem_of_singleton. lia.
  - destruct (IH (Z.max a x)) as (m & Hm & Hin & Hle).
    exists m. split; [done |]. split.
    + apply elem_of_cons in Hin as [->|Hin].
      * destruct (Z.max_spec a x) as [[_ ->]|[_ ->]]; [right; left | left]; done.
      * by do 2 right.
    + intros y Hy. apply elem_of_cons in Hy as [->|Hy].
      * assert (Z.max a x ≤ m) by (apply Hle; by left). lia.
      * apply elem_of_cons in Hy as [Hy|Hy].
        -- subst. assert (Z.max a x ≤ m) by (apply Hle; by left). lia.
        -- apply Hle. by right.
Qed.

Lemma is_max_unique m m' l : is_max m l → is_max m' l → m = m'.
Proof. intros [Hin Hle] [Hin' Hle']. apply Hle' in Hin. apply Hle in Hin'. lia. Qed.

Lemma Math_max_nil : Math_max [] = NegInfinity.
Proof. done. Qed.

Lemma Math_max_Int (l : list Z) (m : Z) : Math_max l = Int m ↔ is_max m l.
Proof.
  destruct l as [|a l].
  - split; [done |]. by intros [?%elem_of_nil _].
  - unfold Math_max. simpl.
    destruct (foldl_max2_Int a l) as (m' & -> & Hm').
    split.
    + by intros [= <-].
    + intros Hm. f_equal. by eapply is_max_unique.
Qed.

Lemma Math_max_cons_Int a l : ∃ m, Math_max (a :: l) = Int m.
Proof.
  unfold Math_max. simpl.
  destruct (foldl_max2_Int a l) as (m & -> & _). by exists m.
Qed.

Lemma is_max_perm m l l' : l ≡ₚ l' → is_max m l → is_max m l'.
Proof. intros Hp [Hin Hle]. split; [by rewrite <- Hp |]. intros x. rewrite <- Hp. apply Hle. Qed.

Lemma Math_max_perm l l' : l ≡ₚ l' → Math_max l = Math_max l'.
Proof.
  intros Hp. destruct l as [|a l].
  - apply Permutation_nil_l in Hp. by subst.
  - destruct (Math_max_cons_Int a l) as [m Hm]. rewrite Hm. symmetry.
    apply Math_max_Int. eapply is_max_perm; [done |]. by apply Math_max_Int.
Qed.

End MathMaxFacts.

(* ===================================================================== *)
(** ** The golden path: what [processGoldenPath] returns *)
(* ===================================================================== *)

Section GoldenPathFacts.
Import Js Api StoryGraph Notions.
Implicit Types (edges g : list StoryMapEdge) (e : StoryMapEdge)
  (s k t : string) (w : JsMap string).

Lemma edgesBySource_snoc edges e :
  edgesBySource (edges ++ [e]) =
  map_set (edgesBySource edges) (sourceId e)
    (default [] (map_get (edgesBySource edges) (sourceId e)) ++ [e]).
Proof. unfold edgesBySource, forEach. by rewrite foldl_snoc. Qed.

(** The first loop files every edge under its source, in input order. *)
Lemma edgesBySource_get edges s :
  map_get (edgesBySource edges) s =
  match group s edges with [] => None | g => Some g end.
Proof.
  induction edges as [|e edges IH] using rev_ind; [done |].
  rewrite edgesBySource_snoc, map_get_set. unfold group in *.
  rewrite filter_app. destruct (decide (sourceId e = s)) as [<-|Hne].
  - rewrite IH, filter_cons_True by done. simpl.
    by destruct (filter _ edges).
  - rewrite filter_cons_False by done. simpl. by rewrite app_nil_r.
Qed.

Lemma edgesBySource_NoDup edges : NoDup (edgesBySource edges).*1.
Proof.
  induction edges as [|e edges IH] using rev_ind; [apply NoDup_nil_2 |].
  rewrite edgesBySource_snoc. by apply map_set_NoDup.
Qed.

Lemma edgesBySource_elem edges s g :
  (s, g) ∈ edgesBySource edges ↔ g = group s edges ∧ g ≠ [].
Proof.
  split.
  - intros Hin. apply elem_map_get in Hin; [|apply edgesBySource_NoDup].
    rewrite edgesBySource_get in Hin.
    destruct (group s edges) eqn:Hg; [done |]. by injection Hin as <-.
  - intros [-> Hne]. apply map_get_Some_elem. rewrite edgesBySource_get.
    by destruct (group s edges).
Qed.

(** The inner loop of a group, for any value [M] of [maxVotes]. *)
Lemma markLoop_has (M : number) s g w k :
  map_has
    (forEach g
       (λ edge w', if decide (Int (votes edge) = M)
                   then map_set w' (edgeKey s (targetId edge)) (targetId edge)
                   else w') w) k = true
  ↔ map_has w k = true
    ∨ ∃ e, e ∈ g ∧ Int (votes e) = M ∧ k = edgeKey s (targetId e).
Proof.
  unfold forEach. revert w. induction g as [|e g IH]; intros w; simpl.
  - split; [by left |]. intros [?|(e & ?%elem_of_nil & _)]; done.
  - rewrite IH. destruct (decide (Int (votes e) = M)) as [HM|HM].
    + rewrite map_has_set. split.
      * intros [[<-|?]|(e' & ? & ? & ?)].
        -- right. exists e. split_and!; [by left | done..].
        -- by left.
        -- right. exists e'. split_and!; [by right | done..].
      * intros [?|(e' & [->|?]%elem_of_cons & ? & ->)].
        -- left. by right.
        -- left. by left.
        -- right. by exists e'.
    + split.
      * intros [?|(e' & ? & ? & ?)]; [by left |].
        right. exists e'. split_and!; [by right | done..].
      * intros [?|(e' & [->|?]%elem_of_cons & ? & ->)]; [by left | done |].
        right. by exists e'.
Qed.

(** The value stored under a key comes from the map before the loop or
    from a marked edge of the group. *)
Lemma markLoop_get (M : number) s g w k t :
  map_get
    (forEach g
       (λ edge w', if decide (Int (votes edge) = M)
                   then map_set w' (edgeKey s (targetId edge)) (targetId edge)
                   else w') w) k = Some t →
  map_get w k = Some t
  ∨ ∃ e, e ∈ g ∧ Int (votes e) = M ∧ k = edgeKey s (targetId e) ∧ t = targetId e.
Proof.
  unfold forEach. revert w. induction g as [|e g IH]; intros w; simpl.
  - by left.
  - intros [Hw|(e' & ? & ? & ? & ?)]%IH.
    + destruct (decide (Int (votes e) = M)) as [HM|HM]; [|by left].
      rewrite map_get_set in Hw.
      destruct (decide (edgeKey s (targetId e) = k)) as [<-|?]; [|by left].
      injection Hw as <-. right. exists e. split_and!; [by left | done..].
    + right. exists e'. split_and!; [by right | done..].
Qed.

Lemma markGroup_has g s w k :
  map_has (markGroup g s w) k = true ↔ map_has w k = true ∨ contributes g s k.
Proof.
  unfold markGroup, contributes.
  destruct (decide (Math_max (votes <$> g) = Int 0)) as [H0|H0].
  - split; [by left |]. by intros [?|[? _]].
  - rewrite markLoop_has. split; intros [?|?]; auto; right; tauto.
Qed.

Lemma markGroup_get g s w k t :
  map_get (markGroup g s w) k = Some t →
  map_get w k = Some t
  ∨ (contributes g s k ∧ ∃ e, e ∈ g ∧ k = edgeKey s (targetId e) ∧ t = targetId e).
Proof.
  unfold markGroup, contributes.
  destruct (decide (Math_max (votes <$> g) = Int 0)) as [H0|H0]; [by left |].
  intros [?|(e & ? & ? & ? & ?)]%markLoop_get; [by left |].
  right. split; [split; [done |] |]; exists e; done.
Qed.

Lemma markAll_has (m : JsMap (list StoryMapEdge)) w k :
  map_has (map_forEach m markGroup w) k = true
  ↔ map_has w k = true ∨ ∃ s g, (s, g) ∈ m ∧ contributes g s k.
Proof.
  unfold map_forEach. revert w. induction m as [|[s g] m IH]; intros w; simpl.
  - split; [by left |]. intros [?|(? & ? & ?%elem_of_nil & _)]; done.
  - rewrite IH, markGroup_has. split.
    + intros [[?|?]|(s' & g' & ? & ?)].
      * by left.
      * right. exists s, g. split; [by left | done].
      * right. exists s', g'. split; [by right | done].
    + intros [?|(s' & g' & [[= -> ->]|?]%elem_of_cons & ?)].
      * left. by left.
      * left. by right.
      * right. by exists s', g'.
Qed.

Lemma markAll_get (m : JsMap (list StoryMapEdge)) w k t :
  map_get (map_forEach m markGroup w) k = Some t →
  map_get w k = Some t
  ∨ ∃ s g e, (s, g) ∈ m ∧ contributes g s k ∧ e ∈ g
             ∧ k = edgeKey s (targetId e) ∧ t = targetId e.
Proof.
  unfold map_forEach. revert w. induction m as [|[s g] m IH]; intros w; simpl.
  - by left.
  - intros [Hw|(s' & g' & e & ? & ? & ? & ? & ?)]%IH.
    + apply markGroup_get in Hw as [?|(? & e & ? & ? & ?)]; [by left |].
      right. exists s, g, e. split_and!; [by left | done..].
    + right. exists s', g', e. split_and!; [by right | done..].
Qed.

Lemma elem_of_group e s edges : e ∈ group s edges ↔ sourceId e = s ∧ e ∈ edges.
Proof. unfold group. by rewrite list_elem_of_filter. Qed.

Lemma contributes_topVoted edges s k :
  contributes (group s edges) s k ↔
  ∃ e, e ∈ edges ∧ sourceId e = s ∧ k = keyOf e ∧ topVoted edges e.
Proof.
  unfold contributes, topVoted, keyOf. split.
  - intros (Hnz & e & [<- Hin]%elem_of_group & HM & ->).
    exists e. split_and!; try done.
    + apply Math_max_Int. done.
    + intros H0. apply Hnz. by rewrite <- HM, H0.
  - intros (e & Hin & <- & -> & HM%Math_max_Int & Hnz).
    rewrite HM. split; [by intros [= ?] |].
    exists e. split_and!; try done. by apply elem_of_group.
Qed.

(** The keys of the golden path are exactly the keys of the top-voted
    edges. *)
Lemma processGoldenPath_has edges k :
  map_has (processGoldenPath edges) k = true
  ↔ ∃ e, e ∈ edges ∧ k = keyOf e ∧ topVoted edges e.
Proof.
  unfold processGoldenPath. rewrite markAll_has. split.
  - intros [?|(s & g & [-> _]%edgesBySource_elem & Hc)]; [done |].
    apply contributes_topVoted in Hc as (e & ? & ? & ? & ?). by exists e.
  - intros (e & Hin & -> & Htop). right.
    exists (sourceId e), (group (sourceId e) edges). split.
    + apply edgesBySource_elem. split; [done |].
      intros Hnil. assert (e ∈ group (sourceId e) edges) as He
        by by apply elem_of_group.
      rewrite Hnil in He. by apply elem_of_nil in He.
    + apply contributes_topVoted. by exists e.
Qed.

(** The target stored under a key is the target of a top-voted edge with
    that key. *)
Lemma processGoldenPath_get edges k t :
  map_get (processGoldenPath edges) k = Some t →
  ∃ e, e ∈ edges ∧ k = keyOf e ∧ t = targetId e ∧
       ∃ e', e' ∈ edges ∧ sourceId e' = sourceId e ∧ k = keyOf e' ∧ topVoted edges e'.
Proof.
  unfold processGoldenPath.
  intros [?|(s & g & e & [-> _]%edgesBySource_elem & Hc & [<- He]%elem_of_group & -> & ->)]%markAll_get;
    [done |].
  exists e. split_and!; try done.
  apply contributes_topVoted in Hc as (e' & ? & ? & ? & ?). by exists e'.
Qed.

End GoldenPathFacts.

(* ===================================================================== *)
(** ** Golden path: ties, zero votes, order of the input *)
(* ===================================================================== *)

Section GoldenPathClaims.
Import Js Api StoryGraph Notions.
Implicit Types (edges g : list StoryMapEdge) (e : StoryMapEdge)
  (s k t : string).

Lemma isWinner_iff edges e :
  isWinner edges e = true ↔
  ∃ e', e' ∈ edges ∧ keyOf e = keyOf e' ∧ topVoted edges e'.
Proof. unfold isWinner. apply processGoldenPath_has. Qed.

Lemma elem_of_winnerKeys edges k :
  k ∈ winnerKeys edges ↔ map_has (processGoldenPath edges) k = true.
Proof.
  unfold winnerKeys. rewrite elem_of_list_to_set, map_has_true.
  rewrite <- not_eq_None_Some, map_get_None_keys.
  split; [by intros ? ? | apply dec_stable].
Qed.

Lemma group_perm s edges edges' : edges ≡ₚ edges' → group s edges ≡ₚ group s edges'.
Proof. intros Hp. unfold group. by rewrite Hp. Qed.

Lemma topVoted_perm edges edges' e :
  edges ≡ₚ edges' → topVoted edges e → topVoted edges' e.
Proof.
  intros Hp [Hmax Hnz]. split; [|done].
  eapply is_max_perm; [|done]. by rewrite (group_perm _ _ _ Hp).
Qed.

Lemma has_perm edges edges' k :
  edges ≡ₚ edges' →
  map_has (processGoldenPath edges) k = true →
  map_has (processGoldenPath edges') k = true.
Proof.
  intros Hp (e & Hin & -> & Htop)%processGoldenPath_has.
  apply processGoldenPath_has. exists e. split_and!; [by rewrite <- Hp | done |].
  by eapply topVoted_perm.
Qed.

(** Two equal edge keys with equal sources have equal targets. *)
Lemma edgeKey_inj_target s t t' : edgeKey s t = edgeKey s t' → t = t'.
Proof.
  unfold edgeKey. intros H. apply (inj (String.app s)) in H.
  by apply (inj (String.app "-")) in H.
Qed.

(** The maximum of a group is attained by one of its edges. *)
Lemma is_max_attained m s edges :
  is_max m (votes <$> group s edges) →
  ∃ e, e ∈ edges ∧ sourceId e = s ∧ votes e = m.
Proof.
  intros [(e & -> & [? ?]%elem_of_group)%list_elem_of_fmap _]. by exists e.
Qed.

(** C3, as amended. For an input edge [e] whose group has a positive
    maximum [m], and whose key is not also the key of an input edge with
    another source: [e] is marked as a winner exactly when an edge of its
    group with the same target has [m] votes. So every edge with [m] votes
    wins (a tie gives several winners), and an edge with fewer votes is
    left out unless a duplicate of its (source, target) pair has [m] votes;
    when [e] has no such duplicate with other votes, it wins exactly when
    its own votes are [m]. *)
Theorem winners_of_positive_group edges e m :
  e ∈ edges →
  is_max m (votes <$> group (sourceId e) edges) →
  0 < m →
  (∀ e', e' ∈ edges → keyOf e' = keyOf e → sourceId e' = sourceId e) →
  (isWinner edges e = true ↔
     ∃ e', e' ∈ group (sourceId e) edges ∧ targetId e' = targetId e ∧ votes e' = m)
  ∧ (votes e = m → isWinner edges e = true)
  ∧ ((∀ e', e' ∈ group (sourceId e) edges → targetId e' = targetId e →
            votes e' = votes e) →
     (isWinner edges e = true ↔ votes e = m)).
Proof.
  intros Hin Hmax Hpos Hkey.
  assert (isWinner edges e = true ↔
          ∃ e', e' ∈ group (sourceId e) edges ∧ targetId e' = targetId e
                ∧ votes e' = m) as Hiff.
  { rewrite isWinner_iff. split.
    - intros (e' & Hin' & Hk & Htop & _).
      assert (sourceId e' = sourceId e) as Hs by (by apply Hkey).
      exists e'. split_and!.
      + by apply elem_of_group.
      + unfold keyOf in Hk. rewrite Hs in Hk. symmetry.
        by apply edgeKey_inj_target in Hk.
      + rewrite Hs in Htop. by eapply is_max_unique.
    - intros (e' & [Hs Hin']%elem_of_group & Ht & Hv).
      exists e'. split_and!; [done | unfold keyOf; by rewrite Hs, Ht |].
      subst m. split; [by rewrite Hs | lia]. }
  split_and!; [done | |].
  - intros Hv. apply Hiff. exists e. split_and!; [by apply elem_of_group | done..].
  - intros Hdup. rewrite Hiff. split.
    + intros (e' & He' & Ht & <-). symmetry. by apply Hdup.
    + intros Hv. exists e. split_and!; [by apply elem_of_group | done..].
Qed.

(** A computable test for [is_max]. *)
Lemma is_max_check m (l : list Z) :
  existsb (Z.eqb m) l && forallb (λ x, x <=? m) l = true → is_max m l.
Proof.
  intros [Hex Hall]%andb_prop. split.
  - apply existsb_exists in Hex as (x & Hx & ->%Z.eqb_eq).
    by apply list_elem_of_In.
  - intros x Hx%list_elem_of_In. rewrite forallb_forall in Hall.
    apply Z.leb_le. by apply Hall.
Qed.

Lemma winners_of_positive_group_witness :
  let edges := [ {| sourceId := "A"; targetId := "B"; votes := 5 |};
                 {| sourceId := "A"; targetId := "C"; votes := 5 |};
                 {| sourceId := "A"; targetId := "D"; votes := 3 |} ] in
  (isWinner edges {| sourceId := "A"; targetId := "B"; votes := 5 |} = true ↔ 5 = 5)
  ∧ (isWinner edges {| sourceId := "A"; targetId := "C"; votes := 5 |} = true ↔ 5 = 5)
  ∧ (isWinner edges {| sourceId := "A"; targetId := "D"; votes := 3 |} = true ↔ 3 = 5).
Proof.
  intros edges.
  assert (is_max 5 (votes <$> group "A" edges)) as Hmax.
  { by apply is_max_check. }
  assert (∀ e e', e ∈ edges → e' ∈ edges → keyOf e' = keyOf e →
                  sourceId e' = sourceId e) as Hkey.
  { intros e e' He He'. subst edges.
    repeat (apply elem_of_cons in He as [->|He]); [..|by apply elem_of_nil in He];
    repeat (apply elem_of_cons in He' as [->|He']);
      try (by apply elem_of_nil in He'); done. }
  assert (∀ e, e ∈ edges →
            ∀ e', e' ∈ group (sourceId e) edges → targetId e' = targetId e →
                  votes e' = votes e) as Hdup.
  { intros e He e' [_ He']%elem_of_group. subst edges.
    repeat (apply elem_of_cons in He as [->|He]); [..|by apply elem_of_nil in He];
    repeat (apply elem_of_cons in He' as [->|He']);
      try (by apply elem_of_nil in He'); done. }
  split_and!.
  - apply (winners_of_positive_group edges
             {| sourceId := "A"; targetId := "B"; votes := 5 |} 5);
      [by left | done | lia | intros e'; apply Hkey; by left | apply Hdup; by left].
  - apply (winners_of_positive_group edges
             {| sourceId := "A"; targetId := "C"; votes := 5 |} 5);
      [by right; left | done | lia | intros e'; apply Hkey; by right; left
      | apply Hdup; by right; left].
  - apply (winners_of_positive_group edges
             {| sourceId := "A"; targetId := "D"; votes := 3 |} 5);
      [by do 2 right; left | done | lia | intros e'; apply Hkey; by do 2 right; left
      | apply Hdup; by do 2 right; left].
Defined.

(** The tie of P1 and the single winner of P3, evaluated. *)
Example golden_path_5_5_3 :
  processGoldenPath
    [ {| sourceId := "A"; targetId := "B"; votes := 5 |};
      {| sourceId := "A"; targetId := "C"; votes := 5 |};
      {| sourceId := "A"; targetId := "D"; votes := 3 |} ]
  = [("A-B", "B"); ("A-C", "C")].
Proof. reflexivity. Qed.

Example golden_path_1_0_0 :
  processGoldenPath
    [ {| sourceId := "A"; targetId := "B"; votes := 1 |};
      {| sourceId := "A"; targetId := "C"; votes := 0 |};
      {| sourceId := "A"; targetId := "D"; votes := 0 |} ]
  = [("A-B", "B")].
Proof. reflexivity. Qed.

(** C3 as stated fails: with the edges (A, B, 5) and (A, B, 3) the group
    of A has maximum 5, and the 3-vote edge is marked as a winner, because
    membership is decided by the (source, target) key it shares with the
    5-vote edge. *)
Lemma lower_voted_duplicate_is_marked :
  ¬ (∀ edges e m,
       e ∈ edges →
       is_max m (votes <$> group (sourceId e) edges) →
       0 < m →
       (isWinner edges e = true ↔ votes e = m)).
Proof.
  intros H.
  specialize (H [ {| sourceId := "A"; targetId := "B"; votes := 5 |};
                  {| sourceId := "A"; targetId := "B"; votes := 3 |} ]
                {| sourceId := "A"; targetId := "B"; votes := 3 |} 5).
  assert (3 = 5) as Habs; [|lia].
  apply H; [by right; left | | lia | reflexivity].
  by apply is_max_check.
Qed.

(** What the component renders at that input: both edges are animated and
    drawn with the winner style. *)
Example lower_voted_duplicate_rendered :
  animated <$>
    processedEdges
      (Some {| nodes := [ {| id := "A"; label := Some "start"; type := ROOT;
                             isDeleted := Some false |};
                          {| id := "B"; label := Some "end"; type := LEAF;
                             isDeleted := Some false |} ];
               edges := [ {| sourceId := "A"; targetId := "B"; votes := 5 |};
                          {| sourceId := "A"; targetId := "B"; votes := 3 |} ] |})
      (Some "A")
  = [true; true].
Proof. reflexivity. Qed.

(** A group whose maximum is zero contributes no key. *)
Lemma zero_group_contributes_nothing g s k :
  is_max 0 (votes <$> g) → ¬ contributes g s k.
Proof. intros Hmax%Math_max_Int [Hnz _]. done. Qed.

(** The zero-vote rule for an edge whose key is not also the key of an
    edge with another source. *)
Lemma zero_group_not_marked edges e :
  e ∈ edges →
  is_max 0 (votes <$> group (sourceId e) edges) →
  (∀ e', e' ∈ edges → keyOf e' = keyOf e → sourceId e' = sourceId e) →
  isWinner edges e = false.
Proof.
  intros Hin Hmax Hkey. apply not_true_is_false.
  intros (e' & Hin' & Hk & Htop & Hnz)%isWinner_iff.
  rewrite (Hkey e' Hin' (eq_sym Hk)) in Htop.
  apply Hnz. by eapply is_max_unique.
Qed.

(** C4 at the input (a, b-c, 0), (a-b, c, 5): the group of "a" has
    maximum 0, yet its edge is marked as a winner and rendered as one,
    because its key "a-b-c" is also the key of the winning edge of the
    group of "a-b". *)
Theorem zero_group_marked_through_shared_key :
  let e := {| sourceId := "a"; targetId := "b-c"; votes := 0 |} in
  let edges := [ e; {| sourceId := "a-b"; targetId := "c"; votes := 5 |} ] in
  group "a" edges = [e]
  ∧ is_max 0 (votes <$> group "a" edges)
  ∧ processGoldenPath edges = [("a-b-c", "c")]
  ∧ isWinner edges e = true
  ∧ animated <$>
      processedEdges
        (Some {| nodes := [ {| id := "a"; label := None; type := ROOT;
                               isDeleted := None |} ];
                 edges := edges |}) None
    = [true; true].
Proof.
  intros e edges. split_and!; try reflexivity.
  by apply is_max_check.
Qed.

(** C5. The golden path is a function of the edge list (the same list
    gives the same map), and the winner set, as a set of keys, does not
    depend on the order of the input: a permutation of the edges has the
    same keys, and every edge is marked in one exactly when it is marked in
    the other. *)
Theorem golden_path_order_independent edges edges' :
  edges ≡ₚ edges' →
  winnerKeys edges = winnerKeys edges'
  ∧ (∀ e, isWinner edges e = isWinner edges' e)
  ∧ (edges = edges' → processGoldenPath edges = processGoldenPath edges').
Proof.
  intros Hp.
  assert (∀ k, map_has (processGoldenPath edges) k
               = map_has (processGoldenPath edges') k) as Hhas.
  { intros k. apply eq_true_iff_eq. split; apply has_perm; done. }
  split_and!.
  - apply set_eq. intros k. by rewrite !elem_of_winnerKeys, Hhas.
  - intros e. apply Hhas.
  - by intros ->.
Qed.

Lemma golden_path_order_independent_witness :
  let edges := [ {| sourceId := "A"; targetId := "B"; votes := 5 |};
                 {| sourceId := "B"; targetId := "D"; votes := 7 |};
                 {| sourceId := "A"; targetId := "C"; votes := 5 |} ] in
  let edges' := [ {| sourceId := "B"; targetId := "D"; votes := 7 |};
                  {| sourceId := "A"; targetId := "C"; votes := 5 |};
                  {| sourceId := "A"; targetId := "B"; votes := 5 |} ] in
  edges ≡ₚ edges' ∧ winnerKeys edges = winnerKeys edges'.
Proof.
  intros edges edges'.
  assert (edges ≡ₚ edges') as Hp.
  { subst edges edges'. apply (Permutation_cons_app [_; _] []). reflexivity. }
  split; [done |]. by apply (golden_path_order_independent edges edges').
Defined.

(** The stored targets, unlike the keys, can depend on the order when two
    groups produce the same key. *)
Example golden_path_values_depend_on_order :
  processGoldenPath [ {| sourceId := "a"; targetId := "b-c"; votes := 1 |};
                      {| sourceId := "a-b"; targetId := "c"; votes := 5 |} ]
    = [("a-b-c", "c")]
  ∧ processGoldenPath [ {| sourceId := "a-b"; targetId := "c"; votes := 5 |};
                        {| sourceId := "a"; targetId := "b-c"; votes := 1 |} ]
    = [("a-b-c", "b-c")].
Proof. split; reflexivity. Qed.

End GoldenPathClaims.

(* ===================================================================== *)
(** ** The nodes on the winner path *)
(* ===================================================================== *)

Section WinnerNodes.
Import Js Api StoryGraph Notions.

Lemma split_nonempty sep s : split sep s ≠ [].
Proof.
  destruct s as [|c s]; simpl; [done |].
  destruct (decide (c = sep)); [done |]. by destruct (split sep s).
Qed.

Lemma first_split_cons sep c s :
  c ≠ sep → first (split sep (String c s)) = String c (first (split sep s)).
Proof.
  intros Hne. simpl. rewrite decide_False by done.
  pose proof (split_nonempty sep s). by destruct (split sep s).
Qed.

Lemma first_split_sep sep s : first (split sep (String sep s)) = "".
Proof. simpl. by rewrite decide_True. Qed.

(** Reading the source back from a key succeeds when the source has no
    '-' in it. *)
Lemma first_split_edgeKey s t :
  occurs "-" s = false → first (split "-" (edgeKey s t)) = s.
Proof.
  unfold edgeKey. induction s as [|c s IH]; intros Hocc.
  - apply first_split_sep.
  - simpl in Hocc. destruct (decide (c = "-"%char)) as [|Hne]; [done |].
    change (String c s +:+ "-" +:+ t) with (String c (s +:+ "-" +:+ t)).
    rewrite first_split_cons by done. f_equal. by apply IH.
Qed.

(** In general it yields the part of the source before its first '-'. *)
Lemma first_split_edgeKey_dash s s' t :
  occurs "-" s = false →
  first (split "-" (edgeKey (s +:+ "-" +:+ s') t)) = s.
Proof.
  intros Hocc. unfold edgeKey.
  replace ((s +:+ "-" +:+ s') +:+ "-" +:+ t)
    with (s +:+ "-" +:+ (s' +:+ "-" +:+ t)).
  - by apply first_split_edgeKey.
  - clear Hocc. induction s as [|c s IH]; [done |].
    change (String c (s +:+ "-" +:+ s' +:+ "-" +:+ t)
            = String c ((s +:+ "-" +:+ s') +:+ "-" +:+ t)).
    by rewrite IH.
Qed.

(** Two situations in which equal keys mean equal sources: no '-' in the
    sources, and sources of one length, as GUIDs are. *)
Lemma dash_free_keys_faithful e e' :
  occurs "-" (sourceId e) = false → occurs "-" (sourceId e') = false →
  keyOf e = keyOf e' → sourceId e = sourceId e'.
Proof.
  intros He He' Hk.
  rewrite <- (first_split_edgeKey (sourceId e) (targetId e) He).
  rewrite <- (first_split_edgeKey (sourceId e') (targetId e') He').
  unfold keyOf in Hk. by rewrite Hk.
Qed.

Lemma append_inj_length (s s' r r' : string) :
  String.length s = String.length s' → s +:+ r = s' +:+ r' → s = s'.
Proof.
  revert s'. induction s as [|c s IH]; intros [|c' s']; simpl; try done.
  intros [= Hlen] [= -> Happ]. f_equal. by apply IH.
Qed.

Lemma equal_length_keys_faithful e e' :
  String.length (sourceId e) = String.length (sourceId e') →
  keyOf e = keyOf e' → sourceId e = sourceId e'.
Proof. intros Hlen Hk. by eapply append_inj_length. Qed.

(** With sources of one length, hence for GUIDs, the zero-vote rule holds
    for every edge, and an edge without a duplicate of its pair wins
    exactly when its votes are the positive maximum of its group. *)
Lemma zero_group_not_marked_equal_length edges e :
  (∀ e', e' ∈ edges → String.length (sourceId e') = String.length (sourceId e)) →
  e ∈ edges →
  is_max 0 (votes <$> group (sourceId e) edges) →
  isWinner edges e = false.
Proof.
  intros Hlen Hin Hmax. apply zero_group_not_marked; [done | done |].
  intros e' Hin' Hk. apply equal_length_keys_faithful; [by apply Hlen | done].
Qed.

Lemma elem_of_winnerNodes (goldenPath : JsMap string) x :
  x ∈ winnerNodes goldenPath ↔
  ∃ k t, (k, t) ∈ goldenPath ∧ (x = first (split "-" k) ∨ x = t).
Proof.
  unfold winnerNodes, map_forEach.
  assert (∀ acc : gset string,
            x ∈ foldl (λ acc kv, acc ∪ {[first (split "-" kv.1)]} ∪ {[kv.2]})
                  acc goldenPath
            ↔ x ∈ acc ∨ ∃ k t, (k, t) ∈ goldenPath
                               ∧ (x = first (split "-" k) ∨ x = t)) as Hgen.
  { induction goldenPath as [|[k t] gp IH]; intros acc; simpl.
    - split; [by left |]. intros [?|(? & ? & ?%elem_of_nil & _)]; done.
    - rewrite IH, !elem_of_union, !elem_of_singleton. split.
      + intros [[[?|?]|?]|(k' & t' & ? & ?)].
        * by left.
        * right. exists k, t. split; [by left | by left].
        * right. exists k, t. split; [by left | by right].
        * right. exists k', t'. split; [by right | done].
      + intros [?|(k' & t' & [[= -> ->]|?]%elem_of_cons & Hx)].
        * left. left. by left.
        * left. destruct Hx; [left; by right | by right].
        * right. by exists k', t'. }
  rewrite Hgen. split; [|by right]. intros [?%elem_of_empty|?]; done.
Qed.

(** The target of every entry of the golden path is on the winner path. *)
Lemma winnerNodes_target (goldenPath : JsMap string) k t :
  map_get goldenPath k = Some t → t ∈ winnerNodes goldenPath.
Proof.
  intros Hget%map_get_Some_elem. apply elem_of_winnerNodes.
  exists k, t. split; [done | by right].
Qed.

(** When no source id of the input contains a '-', both ends of every
    winning edge are on the winner path. *)
Lemma winner_ends_marked_without_dash edges e :
  (∀ e', e' ∈ edges → occurs "-" (sourceId e') = false) →
  e ∈ edges →
  isWinner edges e = true →
  sourceId e ∈ winnerNodes (processGoldenPath edges)
  ∧ targetId e ∈ winnerNodes (processGoldenPath edges).
Proof.
  intros Hdash Hin [t Hget]%map_has_true.
  pose proof (map_get_Some_elem _ _ _ Hget) as Helem.
  split; apply elem_of_winnerNodes; exists (keyOf e), t; (split; [done |]).
  - left. unfold keyOf. rewrite first_split_edgeKey; [done | by apply Hdash].
  - right. apply processGoldenPath_get in Hget as (e0 & Hin0 & Hk & -> & _).
    assert (sourceId e = sourceId e0) as Hs.
    { transitivity (first (split "-" (keyOf e))).
      - symmetry. apply first_split_edgeKey. by apply Hdash.
      - rewrite Hk. apply first_split_edgeKey. by apply Hdash. }
    unfold keyOf in Hk. rewrite Hs in Hk. by apply edgeKey_inj_target in Hk.
Qed.

(** C1 at a GUID-shaped input: one edge with 3 votes between two nodes.
    The edge wins and is rendered as a winner, its target is on the winner
    path, and its source is not: the set holds the first segment of the
    source id instead of the id. *)
Theorem guid_source_not_on_winner_path :
  let a := "3f2504e0-4f89-11d3-9a0c-0305e82c3301" in
  let b := "9b2c7d1e-77aa-4c10-8f3e-1d2a6b5c4e90" in
  let e := {| sourceId := a; targetId := b; votes := 3 |} in
  let mapData :=
    {| nodes := [ {| id := a; label := Some "Once"; type := ROOT;
                     isDeleted := Some false |};
                  {| id := b; label := Some "The end"; type := LEAF;
                     isDeleted := Some false |} ];
       edges := [e] |} in
  isWinner (edges mapData) e = true
  ∧ animated <$> processedEdges (Some mapData) (Some a) = [true]
  ∧ elements (winnerNodes (processGoldenPath (edges mapData)))
      ≡ₚ ["3f2504e0"; b]
  ∧ (λ n, (node_id n, StoryNode.isOnWinnerPath (data n)))
      <$> processedNodes (Some mapData) (Some a)
    = [(a, false); (b, true)].
Proof.
  intros a b e mapData. split_and!; [reflexivity | reflexivity | | reflexivity].
  apply NoDup_Permutation.
  - apply NoDup_elements.
  - repeat constructor; set_solver.
  - intros x. rewrite elem_of_elements. unfold winnerNodes, map_forEach.
    vm_compute processGoldenPath. simpl. set_solver.
Qed.

End WinnerNodes.

(* ===================================================================== *)
(** ** The view model and what the panel shows *)
(* ===================================================================== *)

Section ViewModel.
Import Js Api StoryGraph Notions.

Variable dagre_node : list string → list (string * string) → string → Position.

Lemma processed_nonempty md cur :
  nodes md ≠ [] →
  processed (Some md) cur =
    (toNode (winnerNodes (processGoldenPath (edges md))) cur <$> nodes md,
     toEdge (processGoldenPath (edges md)) <$> edges md).
Proof.
  intros Hne. unfold processed.
  destruct (decide (length (nodes md) = 0%nat)) as [H0|H0]; [|done].
  by apply length_zero_iff_nil in H0.
Qed.

Lemma processed_empty mapData cur :
  from_option nodes [] mapData = [] → processed mapData cur = ([], []).
Proof.
  destruct mapData as [md|]; simpl; [|done].
  intros ->. done.
Qed.

(** The layout changes positions only. *)
Lemma getLayoutedElements_data ns es :
  data <$> (getLayoutedElements dagre_node ns es).1 = data <$> ns
  ∧ node_id <$> (getLayoutedElements dagre_node ns es).1 = node_id <$> ns
  ∧ (getLayoutedElements dagre_node ns es).2 = es.
Proof.
  unfold getLayoutedElements. simpl.
  rewrite <- !list_fmap_compose. split_and!; [| |done]; by apply list_fmap_ext.
Qed.

Lemma layouted_data mapData cur :
  data <$> (layouted dagre_node mapData cur).1 = data <$> processedNodes mapData cur
  ∧ node_id <$> (layouted dagre_node mapData cur).1
    = node_id <$> processedNodes mapData cur
  ∧ (layouted dagre_node mapData cur).2 = processedEdges mapData cur.
Proof.
  unfold layouted, processedNodes, processedEdges.
  destruct (processed mapData cur) as [pn pe] eqn:Hp. simpl.
  destruct (decide (length pn = 0%nat)) as [H0|H0].
  - apply length_zero_iff_nil in H0. subst pn. simpl. split_and!; try done.
    unfold processed in Hp. destruct mapData as [md|]; [|by injection Hp].
    destruct (decide (length (nodes md) = 0%nat)) as [Hn|Hn]; [by injection Hp |].
    injection Hp as Hnodes _. apply fmap_nil_inv in Hnodes.
    by rewrite Hnodes in Hn.
  - apply getLayoutedElements_data.
Qed.

(** C6. Without map data, or with an empty node array, the node and edge
    model is empty before and after layout, and the panel is the
    "No story map available" state, unless [isLoading] is set, in which
    case it is the loading state; the two states are different panels. *)
Theorem no_map_renders_empty_state mapData cur isLoading isExpanded :
  from_option nodes [] mapData = [] →
  processedNodes mapData cur = []
  ∧ processedEdges mapData cur = []
  ∧ layouted dagre_node mapData cur = ([], [])
  ∧ StoryGraph dagre_node mapData cur isLoading isExpanded
    = (if truthy isLoading then Loading "Loading story map..."
       else Empty "No story map available")
  ∧ Loading "Loading story map..." ≠ Empty "No story map available".
Proof.
  intros Hempty. pose proof (processed_empty mapData cur Hempty) as Hp.
  unfold processedNodes, processedEdges, StoryGraph, layouted, processedNodes.
  rewrite Hp. simpl. split_and!; try done.
  destruct (truthy isLoading); [done |]. by rewrite orb_true_r.
Qed.

(** With at least one node and [isLoading] unset, the panel is the graph. *)
Lemma populated_map_renders_graph md cur isLoading isExpanded :
  nodes md ≠ [] → truthy isLoading = false →
  ∃ ns es c, StoryGraph dagre_node (Some md) cur isLoading isExpanded
             = Graph isExpanded ns es c
             ∧ length ns = length (nodes md).
Proof.
  intros Hne Hl. unfold StoryGraph, layouted, processedNodes. rewrite Hl.
  rewrite processed_nonempty by done. simpl.
  rewrite bool_decide_eq_false_2.
  - rewrite decide_False.
    + eexists _, _, _. split; [done |]. by rewrite !length_fmap.
    + rewrite length_fmap. by intros ?%length_zero_iff_nil.
  - rewrite length_fmap. by intros ?%length_zero_iff_nil.
Qed.

(** C7. When the current tale id is not the id of any node, no render node
    is marked current, before or after layout; every input node still has
    its render node, and the viewport is not asked to move. *)
Theorem absent_current_marks_no_node md cur :
  (∀ c, cur = Some c → c ∉ (id <$> nodes md)) →
  Forall (λ n, StoryNode.isCurrent (data n) = false) (processedNodes (Some md) cur)
  ∧ Forall (λ n, StoryNode.isCurrent (data n) = false)
      (layouted dagre_node (Some md) cur).1
  ∧ node_id <$> processedNodes (Some md) cur = id <$> nodes md
  ∧ centreTarget cur (layouted dagre_node (Some md) cur).1 = None.
Proof.
  intros Habsent.
  assert (Forall (λ d, StoryNode.isCurrent d = false)
            (data <$> processedNodes (Some md) cur)) as Hdata.
  { unfold processedNodes, processed.
    destruct (decide (length (nodes md) = 0%nat)) as [H0|H0]; simpl;
      [constructor |].
    rewrite <- list_fmap_compose. apply Forall_fmap, Forall_forall.
    intros n Hn. simpl. apply bool_decide_eq_false_2.
    intros <-. apply (Habsent (id n)); [done |].
    apply list_elem_of_fmap. by exists n. }
  assert (node_id <$> processedNodes (Some md) cur = id <$> nodes md) as Hids.
  { unfold processedNodes, processed.
    destruct (decide (length (nodes md) = 0%nat)) as [H0|H0]; simpl.
    - apply length_zero_iff_nil in H0. by rewrite H0.
    - rewrite <- list_fmap_compose. by apply list_fmap_ext. }
  destruct (layouted_data (Some md) cur) as (Hld & Hlid & _).
  split_and!.
  - by apply Forall_fmap in Hdata.
  - rewrite <- Hld in Hdata. by apply Forall_fmap in Hdata.
  - done.
  - unfold centreTarget. destruct cur as [c|]; [|done].
    destruct (decide (c = "")) as [Hc0|Hc0]; [done |].
    destruct (decide _) as [Hl0|Hl0]; [done |].
    destruct (find _ _) as [n|] eqn:Hfind; [|done]. exfalso.
    apply find_some in Hfind as [Hn%list_elem_of_In Hc%bool_decide_eq_true_1].
    apply (Habsent c); [done |]. rewrite <- Hids, <- Hlid.
    apply list_elem_of_fmap. by exists n.
Qed.

(** C8. With at least one node, every input edge has its render edge, in
    input order, between the same ends; that edge carries the decimal text
    of the vote count as its label when the count is greater than zero and
    no label otherwise, so a zero-vote edge is never labelled "0". The
    text determines the count. *)
Theorem edge_label_shows_positive_votes md cur :
  nodes md ≠ [] →
  Forall2 rendersEdge (edges md) (processedEdges (Some md) cur).
Proof.
  intros Hne. unfold processedEdges. rewrite processed_nonempty by done.
  simpl. apply Forall2_fmap_r, Forall_Forall2_diag, Forall_forall.
  intros e _. unfold rendersEdge. simpl.
  case_bool_decide as Hpos; (case_decide as Hpos'; [|]); try done.
  split_and!; [done | done | done | | | |].
  - split; [done | by eexists].
  - intros H0. lia.
  - change "0" with (pretty 0). intros [= H0%(inj pretty)]. lia.
  - by intros v [= ->%(inj pretty)].
Qed.

Lemma edge_label_shows_positive_votes_witness :
  let md := {| nodes := [ {| id := "A"; label := Some "start"; type := ROOT;
                             isDeleted := Some false |} ];
               edges := [ {| sourceId := "A"; targetId := "B"; votes := 12 |};
                          {| sourceId := "A"; targetId := "C"; votes := 0 |} ] |} in
  nodes md ≠ []
  ∧ Forall2 rendersEdge (edges md) (processedEdges (Some md) None).
Proof.
  intros md. assert (nodes md ≠ []) as Hne by done.
  split; [exact Hne |]. exact (edge_label_shows_positive_votes md None Hne).
Defined.

Example edge_labels_12_0 :
  edge_label <$>
    processedEdges
      (Some {| nodes := [ {| id := "A"; label := Some "start"; type := ROOT;
                             isDeleted := Some false |} ];
               edges := [ {| sourceId := "A"; targetId := "B"; votes := 12 |};
                          {| sourceId := "A"; targetId := "C"; votes := 0 |} ] |})
      None
  = [Some "12"; None].
Proof. reflexivity. Qed.

(** The decimal text of some counts. *)
Example vote_labels :
  pretty 1 = "1" ∧ pretty 7 = "7" ∧ pretty 10 = "10" ∧ pretty 1234 = "1234".
Proof. split_and!; reflexivity. Qed.

(** C10. Through the graph component and the node component, a node whose
    [isDeleted] flag is true shows the text "[Deleted]" and no ROOT/LEAF
    badge, whatever its label and type; any other node shows its label, or
    "Untitled" when the label is absent or empty, and the badge of its
    type. *)
Theorem deleted_node_shows_placeholder (n : StoryMapNode)
    (winners : gset string) cur :
  let v := StoryNode.render (data (toNode winners cur n)) in
  (isDeleted n = Some true →
     StoryNode.text v = "[Deleted]" ∧ StoryNode.indicator v = None)
  ∧ (isDeleted n ≠ Some true →
     StoryNode.text v =
       match label n with
       | Some l => if decide (l = "") then "Untitled" else l
       | None => "Untitled"
       end
     ∧ StoryNode.indicator v =
       match type n with
       | ROOT => Some StoryNode.RootIndicator
       | LEAF => Some StoryNode.LeafIndicator
       | BRANCH => None
       end).
Proof.
  simpl. split.
  - intros ->. done.
  - intros Hnd. unfold StoryNode.render, StoryNode.getTypeIndicator. simpl.
    assert (default false (isDeleted n) = false) as ->.
    { destruct (isDeleted n) as [[]|]; done. }
    simpl. split; [|done]. unfold StoryNode.or_else.
    destruct (label n) as [l|]; simpl; [|done].
    destruct (decide (l = "")) as [->|Hl]; [done |].
    by rewrite decide_False.
Qed.

Lemma deleted_node_shows_placeholder_witness :
  let deleted := {| id := "A"; label := Some "Chapter one"; type := ROOT;
                    isDeleted := Some true |} in
  let kept := {| id := "B"; label := Some ""; type := LEAF;
                 isDeleted := Some false |} in
  isDeleted deleted = Some true
  ∧ isDeleted kept ≠ Some true
  ∧ StoryNode.text (StoryNode.render (data (toNode ∅ None deleted))) = "[Deleted]"
  ∧ StoryNode.indicator (StoryNode.render (data (toNode ∅ None deleted))) = None
  ∧ StoryNode.text (StoryNode.render (data (toNode ∅ None kept))) = "Untitled"
  ∧ StoryNode.indicator (StoryNode.render (data (toNode ∅ None kept)))
    = Some StoryNode.LeafIndicator.
Proof.
  intros deleted kept.
  destruct (deleted_node_shows_placeholder deleted ∅ None) as [Hd _].
  destruct (deleted_node_shows_placeholder kept ∅ None) as [_ Hk].
  assert (isDeleted deleted = Some true) as H1 by reflexivity.
  assert (isDeleted kept ≠ Some true) as H2 by (by intros [=]).
  destruct (Hd H1) as [Ht Hi]. destruct (Hk H2) as [Ht' Hi'].
  split_and!; [exact H1 | exact H2 | exact Ht | exact Hi | exact Ht' | exact Hi'].
Defined.

(** The flag reaches the node component unchanged for every node of the
    panel, before and after layout. *)
Lemma isDeleted_passthrough md cur :
  nodes md ≠ [] →
  StoryNode.isDeleted <$> (data <$> (layouted dagre_node (Some md) cur).1)
  = (λ n, default false (isDeleted n)) <$> nodes md.
Proof.
  intros Hne. destruct (layouted_data (Some md) cur) as [-> _].
  unfold processedNodes. rewrite processed_nonempty by done. simpl.
  rewrite <- !list_fmap_compose. by apply list_fmap_ext.
Qed.

End ViewModel.

(** An instance of C6, with every node placed at one spot. *)
Lemma no_map_renders_empty_state_witness :
  let row : list string → list (string * string) → string → StoryGraph.Position :=
    λ _ _ _, {| StoryGraph.x := 90; StoryGraph.y := 25 |} in
  from_option Api.nodes [] (Some {| Api.nodes := []; Api.edges := [] |}) = []
  ∧ StoryGraph.StoryGraph row None (Some "t1") (Some false) false
    = StoryGraph.Empty "No story map available"
  ∧ StoryGraph.StoryGraph row (Some {| Api.nodes := []; Api.edges := [] |})
      (Some "t1") None false
    = StoryGraph.Empty "No story map available"
  ∧ StoryGraph.StoryGraph row None (Some "t1") (Some true) false
    = StoryGraph.Loading "Loading story map...".
Proof.
  intros row. split_and!; [reflexivity | | |].
  - apply (no_map_renders_empty_state row None (Some "t1") (Some false) false).
    reflexivity.
  - apply (no_map_renders_empty_state row
             (Some {| Api.nodes := []; Api.edges := [] |}) (Some "t1") None false).
    reflexivity.
  - apply (no_map_renders_empty_state row None (Some "t1") (Some true) false).
    reflexivity.
Defined.

Lemma absent_current_marks_no_node_witness :
  let row : list string → list (string * string) → string → StoryGraph.Position :=
    λ _ _ _, {| StoryGraph.x := 90; StoryGraph.y := 25 |} in
  let md := {| Api.nodes := [ {| Api.id := "A"; Api.label := Some "start";
                                 Api.type := Api.ROOT;
                                 Api.isDeleted := Some false |};
                              {| Api.id := "B"; Api.label := None;
                                 Api.type := Api.LEAF;
                                 Api.isDeleted := None |} ];
               Api.edges := [ {| Api.sourceId := "A"; Api.targetId := "B";
                                 Api.votes := 2 |} ] |} in
  ("Z" ∉ (Api.id <$> Api.nodes md))
  ∧ Forall (λ n, StoryNode.isCurrent (StoryGraph.data n) = false)
      (StoryGraph.processedNodes (Some md) (Some "Z"))
  ∧ Forall (λ n, StoryNode.isCurrent (StoryGraph.data n) = false)
      (StoryGraph.layouted row (Some md) (Some "Z")).1.
Proof.
  intros row md.
  assert ("Z" ∉ (Api.id <$> Api.nodes md)) as Hz.
  { simpl. intros H. repeat (apply elem_of_cons in H as [H|H]; [done |]).
    by apply elem_of_nil in H. }
  split; [done |].
  destruct (absent_current_marks_no_node row md (Some "Z")) as (H1 & H2 & _).
  - by intros c [= <-].
  - by split.
Defined.

(* ===================================================================== *)
(** ** The reader: overlapping story-map fetches *)
(* ===================================================================== *)

Section MapFetch.
Import Api ReaderView App Notions.

Variable param : string → option string.

Lemma run_app st es es' :
  run param st (es ++ es') = st' ← run param st es; run param st' es'.
Proof.
  revert st. induction es as [|e es IH]; intros st; [done |].
  cbn [run app]. destruct (step param st e) as [st1|]; [apply IH | done].
Qed.

Lemma run_snoc st es e :
  run param st (es ++ [e]) = st' ← run param st es; step param st' e.
Proof.
  rewrite run_app. destruct (run param st es) as [st1|]; [|done].
  cbn [mbind option_bind run]. by destruct (step param st1 e).
Qed.

Lemma settle_Some r l l' :
  settle r l = Some l' → r ∈ l ∧ ∀ x, x ∈ l' → x ∈ l.
Proof.
  revert l'. induction l as [|r' l IH]; intros l'; cbn [settle]; [done |].
  destruct (decide (r' = r)) as [->|Hne].
  - intros [= ->]. split; [by left | by right].
  - destruct (settle r l) as [l0|]; [|done]. intros [= <-].
    destruct (IH l0 eq_refl) as [Hin Hsub]. split; [by right |].
    intros x [->|Hx]%elem_of_cons; [by left | right; by apply Hsub].
Qed.

Lemma settle_first r l : settle r (r :: l) = Some l.
Proof. cbn [settle]. by rewrite decide_True. Qed.

Lemma settle_second r r' : r' ≠ r → settle r [r'; r] = Some [r'].
Proof. intros Hne. cbn [settle]. by rewrite decide_False, decide_True. Qed.

Lemma requestable_Some id i : requestable id = Some i → id = Some i ∧ i ≠ "".
Proof.
  destruct id as [i'|]; simpl; [|done].
  destruct (decide (i' = "")); [done |]. by intros [= ->].
Qed.

Lemma step_Navigate st p :
  Some p ≠ pathname st → step param st (Navigate p) = Some (mount param p st).
Proof. intros Hp. cbn [step]. by rewrite decide_False. Qed.

Lemma mount_tale p i st :
  param p = Some i → i ≠ "" →
  mount param p st
  = {| pathname := Some p; instance := S (instance st);
       reader := Some {| reader_id := Some i;
                         mapState := {| storyMapData := None;
                                        isMapLoading := true |} |};
       inFlight := inFlight st ++ [(S (instance st), EffectFetch, i)] |}.
Proof.
  intros Hp Hi. unfold mount, requestable. by rewrite Hp, decide_False.
Qed.

(** The handler of a fulfilled request writes what arrives: nothing in
    [ReaderView] compares the answer with the tale on display. *)
Lemma fetchResolved_writes f d s : storyMapData (fetchResolved f d s) = Some d.
Proof. by destruct f. Qed.

Lemma update_reader_id_rev k f st r :
  reader st = Some r → ∃ r', update k f st = Some r' ∧ reader_id r' = reader_id r.
Proof.
  intros Hr. unfold update. destruct (decide (k = instance st)); [|by eauto].
  rewrite Hr. by eexists.
Qed.

Lemma fetchInvariant_start : fetchInvariant start.
Proof. split; intros; by apply elem_of_nil in H. Qed.

Lemma fetchInvariant_step st e st' :
  fetchInvariant st → step param st e = Some st' → fetchInvariant st'.
Proof.
  intros Hinv Hstep. pose proof Hinv as [Hle Hown].
  destruct e as [p| |k f i d|k f i]; cbn [step] in Hstep.
  - destruct (decide (Some p = pathname st)); injection Hstep as <-;
      [done |].
    unfold mount.
    destruct (param p) as [i|];
      [destruct (requestable (Some i)) as [i'|] eqn:Hreq |];
      (split; cbn [inFlight instance reader]).
    + intros k f j [Hin|[= -> -> ->]%list_elem_of_singleton]%elem_of_app; [|done].
      apply Hle in Hin. lia.
    + intros f j [Hin|[= -> ->]%list_elem_of_singleton]%elem_of_app.
      * apply Hle in Hin. lia.
      * apply requestable_Some in Hreq as [[= ->] _]. by eexists.
    + intros k f j Hin. apply Hle in Hin. lia.
    + intros f j Hin. apply Hle in Hin. lia.
    + intros k f j Hin. apply Hle in Hin. lia.
    + intros f j Hin. apply Hle in Hin. lia.
  - destruct (reader st) as [r|] eqn:Hr; [|done].
    destruct (requestable (reader_id r)) as [i|] eqn:Hreq; injection Hstep as <-;
      [|done].
    apply requestable_Some in Hreq as [Hid _].
    destruct (update_reader_id_rev (instance st)
                (fetchStarted RefetchAfterContribution) st r Hr) as (r' & Hr' & Hid').
    split; cbn [inFlight instance reader].
    + intros k f j [Hin|[= -> -> ->]%list_elem_of_singleton]%elem_of_app;
        [by eapply Hle | done].
    + rewrite Hr'. intros f j [Hin|[= -> ->]%list_elem_of_singleton]%elem_of_app.
      * apply Hown in Hin as (r0 & Hr0 & Hj).
        injection Hr0 as <-. exists r'. by rewrite Hid'.
      * exists r'. by rewrite Hid'.
  - destruct (settle (k, f, i) (inFlight st)) as [l|] eqn:Hs; [|done].
    injection Hstep as <-. apply settle_Some in Hs as [_ Hsub].
    split; cbn [inFlight instance reader].
    + intros k' f' j Hin%Hsub. by eapply Hle.
    + intros f' j (r & Hr & Hj)%Hsub%Hown.
      destruct (update_reader_id_rev k (fetchResolved f d) st r Hr) as (r' & -> & Hid').
      exists r'. by rewrite Hid'.
  - destruct (settle (k, f, i) (inFlight st)) as [l|] eqn:Hs; [|done].
    injection Hstep as <-. apply settle_Some in Hs as [_ Hsub].
    split; cbn [inFlight instance reader].
    + intros k' f' j Hin%Hsub. by eapply Hle.
    + intros f' j (r & Hr & Hj)%Hsub%Hown.
      destruct (update_reader_id_rev k (fetchRejected f) st r Hr) as (r' & -> & Hid').
      exists r'. by rewrite Hid'.
Qed.

Lemma fetchInvariant_run es st :
  run param start es = Some st → fetchInvariant st.
Proof.
  revert st. induction es as [|e es IH] using rev_ind; intros st.
  - intros [= <-]. apply fetchInvariant_start.
  - rewrite run_snoc. destruct (run param start es) as [st0|]; [|done].
    cbn [mbind option_bind]. intros Hstep.
    eapply fetchInvariant_step; [by apply IH | done].
Qed.

Lemma shownWasFetched_mono trace e st st' :
  instance st' = instance st → reader st' = reader st →
  shownWasFetched trace st → shownWasFetched (trace ++ [e]) st'.
Proof.
  intros Hi Hrd H r d Hr Hd. rewrite Hrd in Hr. rewrite Hi.
  destruct (H r d Hr Hd) as (f & i & Hin & Hid).
  exists f, i. split; [|done]. apply elem_of_app. by left.
Qed.

Lemma shownWasFetched_step trace st e st' :
  fetchInvariant st → shownWasFetched trace st →
  step param st e = Some st' → shownWasFetched (trace ++ [e]) st'.
Proof.
  intros [_ Hown] Hshown Hstep.
  destruct e as [p| |k f i d|k f i]; cbn [step] in Hstep.
  - destruct (decide (Some p = pathname st)); injection Hstep as <-;
      [by eapply shownWasFetched_mono |].
    intros r d. unfold mount.
    destruct (param p) as [i|]; [destruct (requestable (Some i)) |];
      cbn [reader]; [| |done]; by intros [= <-].
  - destruct (reader st) as [r|] eqn:Hr; [|done].
    destruct (requestable (reader_id r)) as [i|]; injection Hstep as <-;
      [|by eapply shownWasFetched_mono].
    eapply shownWasFetched_mono; [| |done]; [done |].
    cbn [reader]. unfold update. rewrite decide_True, Hr by done.
    by destruct r.
  - destruct (settle (k, f, i) (inFlight st)) as [l|] eqn:Hs; [|done].
    injection Hstep as <-. apply settle_Some in Hs as [Hin _].
    destruct (decide (k = instance st)) as [->|Hk].
    + intros r' d'. cbn [reader instance]. unfold update.
      rewrite decide_True by done.
      destruct (Hown f i Hin) as (r & Hr & Hi). rewrite Hr.
      cbn [fmap option_fmap option_map]. intros [= <-]. cbn [mapState reader_id].
      rewrite fetchResolved_writes. intros [= <-].
      exists f, i. split; [|done]. apply elem_of_app. right. by left.
    + eapply shownWasFetched_mono; [| |done]; [done |].
      cbn [reader]. unfold update. by rewrite decide_False.
  - destruct (settle (k, f, i) (inFlight st)) as [l|] eqn:Hs; [|done].
    injection Hstep as <-.
    destruct (decide (k = instance st)) as [->|Hk].
    + intros r' d'. cbn [reader instance]. unfold update.
      rewrite decide_True by done.
      destruct (reader st) as [r|] eqn:Hr; [|done].
      cbn [fmap option_fmap option_map]. intros [= <-]. cbn [mapState reader_id].
      destruct f; cbn [fetchRejected storyMapData]; [done |]. intros Hd.
      destruct (Hshown r d' Hr Hd) as (f' & j & Hin' & Hj).
      exists f', j. split; [|done]. apply elem_of_app. by left.
    + eapply shownWasFetched_mono; [| |done]; [done |].
      cbn [reader]. unfold update. by rewrite decide_False.
Qed.

Lemma shownWasFetched_run trace st :
  run param start trace = Some st → shownWasFetched trace st.
Proof.
  revert st. induction trace as [|e trace IH] using rev_ind; intros st.
  - intros [= <-] r d. done.
  - rewrite run_snoc. destruct (run param start trace) as [st0|] eqn:Hrun; [|done].
    cbn [mbind option_bind]. intros Hstep.
    eapply shownWasFetched_step; [by eapply fetchInvariant_run | by apply IH | done].
Qed.

(** C2. The reader is opened on tale [A] and then on tale [B], so two
    story-map fetches overlap; [B]'s fetch resolves, and then [A]'s. After
    both, the reader on display is the one of [B] and its story-map state
    is [B]'s data; loading is over and nothing is in flight. In general,
    whatever the order of navigations, contributions, answers and
    failures, a story map on display was the answer to a request for the
    tale on display: a late answer for a tale left behind goes to the
    reader instance that asked for it, which the change of pathname has
    unmounted. *)
Theorem stale_map_never_replaces_current :
  (∀ (pA pB A B : string) (dA dB : StoryMapResponse),
     param pA = Some A → param pB = Some B → A ≠ B → A ≠ "" → B ≠ "" →
     ∃ st r,
       run param start [ Navigate pA; Navigate pB;
                         Resolved 2 EffectFetch B dB;
                         Resolved 1 EffectFetch A dA ] = Some st
       ∧ reader st = Some r
       ∧ reader_id r = Some B
       ∧ storyMapData (mapState r) = Some dB
       ∧ isMapLoading (mapState r) = false
       ∧ inFlight st = [])
  ∧ (∀ trace st, run param start trace = Some st → shownWasFetched trace st).
Proof.
  split; [|apply shownWasFetched_run].
  intros pA pB A B dA dB HpA HpB HAB HA HB.
  assert (pA ≠ pB) as Hp by (intros ->; congruence).
  exists {| pathname := Some pB; instance := 2;
            reader := Some {| reader_id := Some B;
                              mapState := {| storyMapData := Some dB;
                                             isMapLoading := false |} |};
            inFlight := [] |}.
  eexists. split_and!; [|reflexivity..].
  cbn [run]. rewrite step_Navigate by (intros H; cbn in H; congruence).
  cbn [mbind option_bind].
  rewrite (mount_tale pA A) by done. cbn [start instance inFlight app].
  rewrite step_Navigate by (intros H; cbn in H; congruence).
  cbn [mbind option_bind].
  rewrite (mount_tale pB B) by done. cbn [instance inFlight app].
  cbn [step inFlight]. rewrite settle_second by congruence.
  cbn [mbind option_bind inFlight]. rewrite settle_first.
  cbn [mbind option_bind]. reflexivity.
Qed.

End MapFetch.

(** An instance of C2, with the tale id read by [taleParam]. *)
Lemma stale_map_never_replaces_current_witness :
  let dA := {| Api.nodes := [ {| Api.id := "A"; Api.label := Some "first";
                                 Api.type := Api.ROOT;
                                 Api.isDeleted := Some false |} ];
               Api.edges := [] |} in
  let dB := {| Api.nodes := [ {| Api.id := "A"; Api.label := Some "first";
                                 Api.type := Api.ROOT;
                                 Api.isDeleted := Some false |};
                              {| Api.id := "B"; Api.label := Some "second";
                                 Api.type := Api.LEAF;
                                 Api.isDeleted := Some false |} ];
               Api.edges := [ {| Api.sourceId := "A"; Api.targetId := "B";
                                 Api.votes := 1 |} ] |} in
  App.taleParam "/tale/A" = Some "A" ∧ App.taleParam "/tale/B" = Some "B"
  ∧ "A" ≠ "B" ∧ "A" ≠ "" ∧ "B" ≠ ""
  ∧ ∃ st r,
      App.run App.taleParam App.start
        [ App.Navigate "/tale/A"; App.Navigate "/tale/B";
          App.Resolved 2 ReaderView.EffectFetch "B" dB;
          App.Resolved 1 ReaderView.EffectFetch "A" dA ] = Some st
      ∧ App.reader st = Some r
      ∧ App.reader_id r = Some "B"
      ∧ ReaderView.storyMapData (App.mapState r) = Some dB
      ∧ ReaderView.isMapLoading (App.mapState r) = false
      ∧ App.inFlight st = [].
Proof.
  intros dA dB.
  assert (App.taleParam "/tale/A" = Some "A") as HpA by reflexivity.
  assert (App.taleParam "/tale/B" = Some "B") as HpB by reflexivity.
  assert ("A" ≠ "B") as HAB by done.
  assert ("A" ≠ "") as HA by done. assert ("B" ≠ "") as HB by done.
  split_and!; [exact HpA | exact HpB | exact HAB | exact HA | exact HB |].
  exact (proj1 (stale_map_never_replaces_current App.taleParam)
           "/tale/A" "/tale/B" "A" "B" dA dB HpA HpB HAB HA HB).
Defined.

(* ===================================================================== *)
(** ** The reader: optimistic votes and their rollback *)
(* ===================================================================== *)

Section VoteOverlay.
Import ReaderView Notions.
Implicit Types (s : VoteState) (t : string) (w : VoteWorld).

Lemma overlay_onMutate s t t' :
  overlay (onMutate t s) t' = if decide (t = t') then overlay s t + 1 else overlay s t'.
Proof.
  unfold overlay, onMutate. simpl. rewrite lookup_insert.
  by destruct (decide (t = t')) as [->|?].
Qed.

Lemma overlay_onError s t t' :
  overlay (onError t s) t' =
  if decide (t = t') then default 1 (optimisticVotes s !! t) - 1 else overlay s t'.
Proof.
  unfold overlay, onError. simpl. rewrite lookup_insert.
  by destruct (decide (t = t')) as [->|?].
Qed.

(** In any state, the rollback undoes the optimistic step it follows: every
    overlay count is what it was, and the tale is out of the voted set. *)
Lemma rollback_undoes_mutate s t :
  (∀ t', overlay (onError t (onMutate t s)) t' = overlay s t')
  ∧ (t ∉ votedTales (onError t (onMutate t s)))
  ∧ (t ∉ votedTales s → votedTales (onError t (onMutate t s)) = votedTales s).
Proof.
  split_and!.
  - intros t'. rewrite overlay_onError, overlay_onMutate.
    destruct (decide (t = t')) as [<-|?]; [|done].
    unfold onMutate, overlay. simpl. rewrite lookup_insert_eq. simpl. lia.
  - simpl. set_solver.
  - simpl. set_solver.
Qed.

Lemma handleVote_Mutating t s s' :
  handleVote true t s = Mutating s' ↔ (t ∉ votedTales s) ∧ s' = onMutate t s.
Proof.
  unfold handleVote. simpl. case_bool_decide as Hin.
  - split; [done | by intros [? _]].
  - split; [by intros [= <-] | by intros [_ ->]].
Qed.

Lemma voteInvariant_start : voteInvariant voteStart.
Proof. split; [|done]. intros t. simpl. by rewrite decide_False by set_solver. Qed.

Lemma voteInvariant_step w w' : voteInvariant w → voteStep w w' → voteInvariant w'.
Proof.
  intros [Hov Hpend] Hstep. destruct Hstep as [t w s' Hv|t w Ht|t w Ht].
  - apply handleVote_Mutating in Hv as [Hnot ->]. split; simpl.
    + intros t'. fold (overlay (onMutate t (overlayState w)) t').
      rewrite overlay_onMutate, !Hov.
      destruct (decide (t = t')) as [<-|Hne].
      * rewrite decide_False by done. rewrite decide_True by set_solver. done.
      * destruct (decide (t' ∈ votedTales (overlayState w))).
        -- rewrite decide_True by set_solver. done.
        -- rewrite decide_False by set_solver. done.
    + set_solver.
  - split; simpl.
    + intros t'. fold (overlay (onError t (overlayState w)) t').
      rewrite overlay_onError. destruct (decide (t = t')) as [<-|Hne].
      * rewrite decide_False by set_solver.
        pose proof (Hov t) as Ht1. rewrite decide_True in Ht1 by set_solver.
        unfold overlay in Ht1.
        destruct (optimisticVotes (overlayState w) !! t); simpl in *; lia.
      * rewrite Hov. destruct (decide (t' ∈ votedTales (overlayState w))).
        -- rewrite decide_True by set_solver. done.
        -- rewrite decide_False by set_solver. done.
    + set_solver.
  - split; simpl; [done | set_solver].
Qed.

Lemma voteInvariant_reachable w : voteReachable w → voteInvariant w.
Proof.
  unfold voteReachable. revert w. apply rtc_ind_r.
  - apply voteInvariant_start.
  - intros w w' _ Hstep Hinv. by eapply voteInvariant_step.
Qed.

(** C9. A reader votes for [taleId]: the click passes [handleVote], so the
    optimistic step runs, raising the overlay count by one and adding the
    tale to the voted set. Other votes may start and settle meanwhile. When
    the request for [taleId] then fails, the error handler puts the overlay
    count of [taleId] back to what it was before the click and takes
    [taleId] out of the voted set, in one state update that leaves the
    other tales alone; the count displayed for the tale, in the
    appreciation bar or on a choice card, is the server's count again.
    Every click is taken to be handled against the state the events
    before it have left. *)
Theorem failed_vote_is_rolled_back w0 t s1 w2 (data : TaleData) :
  voteReachable w0 →
  handleVote true t (overlayState w0) = Mutating s1 →
  rtc voteStep {| overlayState := s1; pendingVotes := pendingVotes w0 ∪ {[t]} |} w2 →
  t ∈ pendingVotes w2 →
  tale_id data = t →
  (overlay s1 t = overlay (overlayState w0) t + 1 ∧ t ∈ votedTales s1)
  ∧ overlay (onError t (overlayState w2)) t = overlay (overlayState w0) t
  ∧ (t ∉ votedTales (onError t (overlayState w2)))
  ∧ displayedVotes data (onError t (overlayState w2)) = default 0 (tale_votes data)
  ∧ displayedHasVoted data (onError t (overlayState w2)) = tale_hasVoted data
  ∧ (∀ v, displayedChoiceVotes t v (onError t (overlayState w2)) = v)
  ∧ ∀ t', t' ≠ t →
      overlay (onError t (overlayState w2)) t' = overlay (overlayState w2) t'
      ∧ (t' ∈ votedTales (onError t (overlayState w2))
         ↔ t' ∈ votedTales (overlayState w2)).
Proof.
  intros Hr0 Hclick Hrun Hpend Hid.
  pose proof (voteInvariant_reachable _ Hr0) as [Hov0 _].
  assert (voteReachable w2) as Hr2.
  { unfold voteReachable. etrans; [|exact Hrun].
    eapply rtc_r; [exact Hr0 |]. by constructor. }
  pose proof (voteInvariant_reachable _ Hr2) as [Hov2 Hsub2].
  apply handleVote_Mutating in Hclick as [Hnot ->].
  assert (overlay (overlayState w0) t = 0) as H0.
  { by rewrite Hov0, decide_False. }
  assert (overlay (onError t (overlayState w2)) t = 0) as H3.
  { rewrite overlay_onError, decide_True by done.
    pose proof (Hov2 t) as H2. rewrite decide_True in H2 by set_solver.
    unfold overlay in H2.
    destruct (optimisticVotes (overlayState w2) !! t); simpl in *; lia. }
  split_and!.
  - by rewrite overlay_onMutate, decide_True.
  - simpl. set_solver.
  - by rewrite H3, H0.
  - simpl. set_solver.
  - unfold displayedVotes. rewrite Hid, H3. lia.
  - unfold displayedHasVoted. rewrite Hid, bool_decide_eq_false_2.
    + apply orb_false_r.
    + simpl. set_solver.
  - intros v. unfold displayedChoiceVotes. rewrite H3. lia.
  - intros t' Hne. split.
    + by rewrite overlay_onError, decide_False.
    + simpl. set_solver.
Qed.

Lemma failed_vote_is_rolled_back_witness :
  let data := {| tale_id := "t1"; tale_votes := Some 41; tale_hasVoted := false |} in
  let s1 := onMutate "t1" noVotes in
  voteReachable voteStart
  ∧ handleVote true "t1" noVotes = Mutating s1
  ∧ displayedVotes data s1 = 42
  ∧ displayedVotes data (onError "t1" s1) = 41
  ∧ "t1" ∉ votedTales (onError "t1" s1).
Proof.
  intros data s1.
  assert (voteReachable voteStart) as Hr by apply rtc_refl.
  assert (handleVote true "t1" noVotes = Mutating s1) as Hc by reflexivity.
  pose proof (failed_vote_is_rolled_back voteStart "t1" s1
                {| overlayState := s1; pendingVotes := ∅ ∪ {["t1"]} |} data
                Hr Hc (rtc_refl _ _)) as H.
  destruct H as (_ & _ & Hout & Hshown & _).
  - simpl. set_solver.
  - reflexivity.
  - split_and!; [exact Hr | exact Hc | reflexivity | exact Hshown | exact Hout].
Defined.

End VoteOverlay.

(* ===================================================================== *)
(** ** Further properties of the golden path *)
(* ===================================================================== *)

Section GoldenPathMore.
Import Js Api StoryGraph Notions.
Implicit Types (edges g : list StoryMapEdge) (e : StoryMapEdge)
  (s k t x : string) (w : JsMap string).

Lemma markGroup_NoDup g s w : NoDup w.*1 → NoDup (markGroup g s w).*1.
Proof.
  unfold markGroup, forEach.
  destruct (decide (Math_max (votes <$> g) = Int 0)) as [_|_]; [done |].
  generalize (Math_max (votes <$> g)) as M. intros M.
  revert w. induction g as [|e g IH]; intros w Hw; simpl; [done |].
  apply IH. destruct (decide (Int (votes e) = M)); [|done].
  by apply map_set_NoDup.
Qed.

Lemma processGoldenPath_NoDup edges : NoDup (processGoldenPath edges).*1.
Proof.
  unfold processGoldenPath, map_forEach.
  assert (∀ (m : JsMap (list StoryMapEdge)) w,
            NoDup w.*1 →
            NoDup (foldl (λ acc kv, markGroup kv.2 kv.1 acc) w m).*1) as Hgen.
  { induction m as [|[s g] m IH]; intros w Hw; simpl; [done |].
    apply IH. by apply markGroup_NoDup. }
  apply Hgen. apply NoDup_nil_2.
Qed.

(** X1. The golden path holds each key once, and its keys are exactly the
    keys of the input edges whose votes are the maximum of the group of
    their source, that maximum not being zero: for any ids and any
    votes. *)
Theorem golden_path_keys_are_top_voted edges :
  NoDup (processGoldenPath edges).*1
  ∧ ∀ k, map_has (processGoldenPath edges) k = true
         ↔ ∃ e, e ∈ edges ∧ k = edgeKey (sourceId e) (targetId e)
                ∧ is_max (votes e) (votes <$> group (sourceId e) edges)
                ∧ votes e ≠ 0.
Proof.
  split; [apply processGoldenPath_NoDup |].
  intros k. rewrite processGoldenPath_has. unfold topVoted, keyOf. naive_solver.
Qed.

(** The maximum of the group of an input edge exists and is attained in
    the group. *)
Lemma group_has_max edges e :
  e ∈ edges →
  ∃ e', e' ∈ edges ∧ sourceId e' = sourceId e
        ∧ is_max (votes e') (votes <$> group (sourceId e) edges).
Proof.
  intros Hin. assert (e ∈ group (sourceId e) edges) as Hg by by apply elem_of_group.
  destruct (group (sourceId e) edges) as [|a g] eqn:Heq;
    [by apply elem_of_nil in Hg |].
  destruct (Math_max_cons_Int (votes a) (votes <$> g)) as [m Hm].
  change (votes a :: (votes <$> g)) with (votes <$> a :: g) in Hm.
  apply Math_max_Int in Hm. pose proof Hm as [Hmin _].
  apply list_elem_of_fmap in Hmin as (e' & -> & He').
  rewrite <- Heq in He'. apply elem_of_group in He' as [Hs He'].
  by exists e'.
Qed.

Lemma some_winner_of_voted_source edges e :
  e ∈ edges → 0 < votes e →
  ∃ e', e' ∈ edges ∧ sourceId e' = sourceId e ∧ votes e ≤ votes e'
        ∧ isWinner edges e' = true.
Proof.
  intros Hin Hpos. destruct (group_has_max edges e Hin) as (e' & Hin' & Hs & Hmax).
  assert (votes e ≤ votes e') as Hle.
  { apply Hmax. apply list_elem_of_fmap. exists e. split; [done |].
    by apply elem_of_group. }
  exists e'. split_and!; [done..|].
  apply isWinner_iff. exists e'. split_and!; [done..|].
  split; [by rewrite Hs | lia].
Qed.

(** X6. Every source with an edge that has votes has a winner: for an
    input edge with a positive count, some edge of the same source with at
    least as many votes is marked as a winner. *)
Theorem voted_source_has_a_winner edges e :
  e ∈ edges → 0 < votes e →
  ∃ e', e' ∈ edges ∧ sourceId e' = sourceId e ∧ votes e ≤ votes e'
        ∧ isWinner edges e' = true.
Proof. apply some_winner_of_voted_source. Qed.

Lemma voted_source_has_a_winner_witness :
  let edges := [ {| sourceId := "A"; targetId := "B"; votes := 2 |};
                 {| sourceId := "A"; targetId := "C"; votes := 7 |} ] in
  let e := {| sourceId := "A"; targetId := "B"; votes := 2 |} in
  e ∈ edges ∧ 0 < votes e
  ∧ ∃ e', e' ∈ edges ∧ sourceId e' = sourceId e ∧ votes e ≤ votes e'
          ∧ isWinner edges e' = true.
Proof.
  intros edges e. assert (e ∈ edges) as Hin by (by left).
  assert (0 < votes e) as Hpos by (simpl; lia).
  split_and!; [exact Hin | exact Hpos |].
  exact (voted_source_has_a_winner edges e Hin Hpos).
Defined.

(** X2. When no count is negative, the golden path is empty exactly when
    no edge has a vote (an empty edge list included). *)
Theorem golden_path_empty_iff_no_votes edges :
  (∀ e, e ∈ edges → 0 ≤ votes e) →
  (processGoldenPath edges = [] ↔ ∀ e, e ∈ edges → votes e = 0).
Proof.
  intros Hnn. split.
  - intros Hnil e Hin. destruct (decide (votes e = 0)) as [|Hne]; [done |].
    assert (0 < votes e) as Hpos by (specialize (Hnn e Hin); lia).
    destruct (some_winner_of_voted_source edges e Hin Hpos) as (e' & _ & _ & _ & Hw).
    unfold isWinner in Hw. by rewrite Hnil in Hw.
  - intros Hzero. destruct (processGoldenPath edges) as [|[k t] l] eqn:Heq; [done |].
    assert (map_has (processGoldenPath edges) k = true) as Hk.
    { rewrite Heq. apply map_has_true. simpl. rewrite decide_True by done.
      by eexists. }
    apply processGoldenPath_has in Hk as (e & Hin & _ & _ & Hnz).
    by specialize (Hzero e Hin).
Qed.

Lemma golden_path_empty_iff_no_votes_witness :
  let edges := [ {| sourceId := "A"; targetId := "B"; votes := 0 |};
                 {| sourceId := "A"; targetId := "C"; votes := 0 |};
                 {| sourceId := "B"; targetId := "D"; votes := 0 |} ] in
  (∀ e, e ∈ edges → 0 ≤ votes e)
  ∧ (processGoldenPath edges = [] ↔ ∀ e, e ∈ edges → votes e = 0).
Proof.
  intros edges.
  assert (∀ e, e ∈ edges → 0 ≤ votes e) as Hnn.
  { intros e He. subst edges.
    repeat (apply elem_of_cons in He as [->|He]; [simpl; lia |]).
    by apply elem_of_nil in He. }
  split; [exact Hnn |]. exact (golden_path_empty_iff_no_votes edges Hnn).
Defined.

(** X4. Looking up the key of a winning edge gives back the target of
    that edge, provided no input edge with another source has the same
    key. *)
Theorem winning_key_stores_target edges e :
  isWinner edges e = true →
  (∀ e', e' ∈ edges → keyOf e' = keyOf e → sourceId e' = sourceId e) →
  map_get (processGoldenPath edges) (keyOf e) = Some (targetId e).
Proof.
  intros [t Hget]%map_has_true Hkey. rewrite Hget. f_equal.
  apply processGoldenPath_get in Hget as (e0 & Hin0 & Hk & -> & _).
  assert (sourceId e0 = sourceId e) as Hs by (by apply Hkey).
  unfold keyOf in Hk. rewrite Hs in Hk. symmetry.
  by apply edgeKey_inj_target in Hk.
Qed.

Lemma winning_key_stores_target_witness :
  let edges := [ {| sourceId := "A"; targetId := "B"; votes := 2 |};
                 {| sourceId := "A"; targetId := "C"; votes := 7 |} ] in
  let e := {| sourceId := "A"; targetId := "C"; votes := 7 |} in
  isWinner edges e = true
  ∧ map_get (processGoldenPath edges) (keyOf e) = Some (targetId e).
Proof.
  intros edges e. assert (isWinner edges e = true) as Hw by reflexivity.
  split; [exact Hw |]. apply (winning_key_stores_target edges e Hw).
  intros e' He'. subst edges.
  repeat (apply elem_of_cons in He' as [->|He']; [done |]).
  by apply elem_of_nil in He'.
Defined.

(** X5. When no source id contains a '-', the nodes on the winner path
    are exactly the sources and the targets of the winning edges. *)
Theorem winner_nodes_are_ends_of_winners edges x :
  (∀ e, e ∈ edges → occurs "-" (sourceId e) = false) →
  (x ∈ winnerNodes (processGoldenPath edges)
   ↔ ∃ e, e ∈ edges ∧ isWinner edges e = true
          ∧ (x = sourceId e ∨ x = targetId e)).
Proof.
  intros Hdash. split.
  - intros (k & t & Hin & Hx)%elem_of_winnerNodes.
    apply elem_map_get in Hin; [|apply processGoldenPath_NoDup].
    assert (map_has (processGoldenPath edges) k = true) as Hk
      by (apply map_has_true; by eexists).
    apply processGoldenPath_get in Hin as (e0 & Hin0 & -> & -> & _).
    exists e0. split_and!; [done | done |].
    destruct Hx as [->| ->]; [left | by right].
    apply first_split_edgeKey. by apply Hdash.
  - intros (e & Hin & Hw & [->| ->]);
      by apply (winner_ends_marked_without_dash edges e).
Qed.

Lemma winner_nodes_are_ends_of_winners_witness :
  let edges := [ {| sourceId := "A"; targetId := "B"; votes := 2 |};
                 {| sourceId := "A"; targetId := "C"; votes := 7 |} ] in
  (∀ e, e ∈ edges → occurs "-" (sourceId e) = false)
  ∧ ("C" ∈ winnerNodes (processGoldenPath edges)
     ↔ ∃ e, e ∈ edges ∧ isWinner edges e = true
            ∧ ("C" = sourceId e ∨ "C" = targetId e)).
Proof.
  intros edges.
  assert (∀ e, e ∈ edges → occurs "-" (sourceId e) = false) as Hdash.
  { intros e He. subst edges.
    repeat (apply elem_of_cons in He as [->|He]; [done |]).
    by apply elem_of_nil in He. }
  split; [exact Hdash |]. exact (winner_nodes_are_ends_of_winners edges "C" Hdash).
Defined.

(** The pieces of a map after filing one more edge: the edge joins the
    pieces already there. *)
Lemma concat_values_file (m : JsMap (list StoryMapEdge)) s e :
  concat (map_set m s (default [] (map_get m s) ++ [e])).*2
  ≡ₚ concat m.*2 ++ [e].
Proof.
  induction m as [|[s' g'] m IH]; [done |].
  cbn [map_get map_set]. destruct (decide (s' = s)) as [->|Hne].
  - cbn. rewrite <- !app_assoc. apply Permutation_app_head, Permutation_app_comm.
  - cbn. rewrite IH. by rewrite app_assoc.
Qed.

(** X3. The first loop of the golden path sorts the edges into groups
    without losing or repeating one: every source is filed once, its
    group is the non-empty list of the edges with that source in input
    order, and the groups together are a rearrangement of the input. *)
Theorem edges_by_source_is_a_partition edges :
  NoDup (edgesBySource edges).*1
  ∧ (∀ s g, (s, g) ∈ edgesBySource edges
            ↔ g = filter (λ e, sourceId e = s) edges ∧ g ≠ [])
  ∧ concat (edgesBySource edges).*2 ≡ₚ edges.
Proof.
  split_and!.
  - apply edgesBySource_NoDup.
  - intros s g. apply edgesBySource_elem.
  - induction edges as [|e edges IH] using rev_ind; [done |].
    rewrite edgesBySource_snoc, concat_values_file. by rewrite IH.
Qed.

End GoldenPathMore.

(* ===================================================================== *)
(** ** Further properties of the graph panel and its nodes *)
(* ===================================================================== *)

Section PanelMore.
Import Js Api StoryGraph Notions.

Variable dagre_node : list string → list (string * string) → string → Position.

(** X8. The viewport is asked to centre exactly when the current tale id
    is not empty and is the id of a node on display, and then on that
    id. *)
Theorem viewport_centres_on_present_current (cur : option string)
    (nodes : list Node) (c : string) :
  centreTarget cur nodes = Some c
  ↔ cur = Some c ∧ c ≠ "" ∧ c ∈ node_id <$> nodes.
Proof.
  unfold centreTarget. destruct cur as [c'|]; [|split; [done | by intros [? _]]].
  destruct (decide (c' = "")) as [->|Hne].
  { split; [done |]. by intros [[= ->] [? _]]. }
  destruct (decide (length nodes = 0%nat)) as [H0|H0].
  { apply length_zero_iff_nil in H0. subst nodes. split; [done |].
    intros (_ & _ & Hin). by apply elem_of_nil in Hin. }
  destruct (find _ nodes) as [n|] eqn:Hfind; simpl.
  - apply find_some in Hfind as [Hn%list_elem_of_In Hc%bool_decide_eq_true_1].
    split.
    + intros [= <-]. split_and!; [by rewrite Hc | by rewrite Hc |].
      apply list_elem_of_fmap. by exists n.
    + intros ([= ->] & _ & _). by rewrite Hc.
  - split; [done |]. intros ([= ->] & _ & (n & -> & Hn)%list_elem_of_fmap).
    apply list_elem_of_In in Hn.
    pose proof (find_none _ _ Hfind n Hn) as Hf. simpl in Hf.
    by apply bool_decide_eq_false_1 in Hf.
Qed.


(** X9. The edges handed to React Flow have distinct ids exactly when the
    input edges have distinct keys: two input edges with one key are
    given one id. *)
Theorem edge_ids_unique_iff_keys_unique md cur :
  nodes md ≠ [] →
  (NoDup (edge_id <$> processedEdges (Some md) cur)
   ↔ NoDup (keyOf <$> edges md)).
Proof.
  intros Hne. unfold processedEdges. rewrite processed_nonempty by done.
  cbn [snd]. rewrite <- list_fmap_compose.
  replace (edge_id ∘ toEdge (processGoldenPath (edges md)) <$> edges md)
    with (String.app "e-" <$> (keyOf <$> edges md)).
  - apply NoDup_fmap. apply _.
  - rewrite <- list_fmap_compose. by apply list_fmap_ext.
Qed.

Lemma edge_ids_unique_iff_keys_unique_witness :
  let md := {| nodes := [ {| id := "A"; label := Some "start"; type := ROOT;
                             isDeleted := Some false |} ];
               edges := [ {| sourceId := "A"; targetId := "B"; votes := 5 |};
                          {| sourceId := "A"; targetId := "B"; votes := 3 |} ] |} in
  nodes md ≠ []
  ∧ (NoDup (edge_id <$> processedEdges (Some md) None)
     ↔ NoDup (keyOf <$> edges md))
  ∧ edge_id <$> processedEdges (Some md) None = ["e-A-B"; "e-A-B"].
Proof.
  intros md. assert (nodes md ≠ []) as Hne by done.
  split_and!; [exact Hne | | reflexivity].
  exact (edge_ids_unique_iff_keys_unique md None Hne).
Defined.

(** X10. What the border of a node on display tells, whatever the map:
    the dashed border and the dimming mark exactly the deleted nodes, the
    violet border exactly the current node when it is not deleted, the
    amber border exactly the nodes on the winner path that are neither
    deleted nor current. *)
Theorem node_border_tells_state (n : StoryMapNode) (winners : gset string)
    (cur : option string) :
  let v := StoryNode.render (data (toNode winners cur n)) in
  (StoryNode.borderClass v = "border-dashed border-slate-600"
   ↔ isDeleted n = Some true)
  ∧ (StoryNode.dimmed v = true ↔ isDeleted n = Some true)
  ∧ (StoryNode.borderClass v
     = "border-violet-500 shadow-[0_0_15px_rgba(139,92,246,0.5)]"
     ↔ isDeleted n ≠ Some true ∧ cur = Some (id n))
  ∧ (StoryNode.borderClass v
     = "border-amber-400 shadow-[0_0_10px_rgba(251,191,36,0.3)]"
     ↔ isDeleted n ≠ Some true ∧ cur ≠ Some (id n) ∧ id n ∈ winners)
  ∧ (StoryNode.borderClass v = "border-slate-700"
     ↔ isDeleted n ≠ Some true ∧ cur ≠ Some (id n) ∧ id n ∉ winners).
Proof.
  cbn zeta. unfold StoryNode.render, StoryNode.getBorderClass, toNode.
  cbn [StoryNode.borderClass StoryNode.dimmed StoryNode.isDeleted
       StoryNode.isCurrent StoryNode.isOnWinnerPath data].
  destruct (isDeleted n) as [[]|]; cbn [default];
    [split_and!; (split; [done | by (intros [? ?] || intros ?)])
    | | ];
    (case_bool_decide as Hc; [|case_bool_decide as Hw]);
    split_and!; split; try done; try (by intros [? ?]); try (by intros (? & ? & ?));
    try (intros _; split_and!; congruence).
Qed.

End PanelMore.


(* ===================================================================== *)
(** ** Further properties of voting *)
(* ===================================================================== *)

Section VoteMore.
Import ReaderView ReaderPage Notions.
Implicit Types (s : VoteState) (t : string) (w : VoteWorld).

(** X11. In every state the vote handlers can reach, a tale carries at
    most one optimistic vote, and carries it exactly while it is in the
    voted set; pending votes are in the voted set; so a count on display
    is the server's count or one more. *)
Theorem overlay_counts_at_most_one_vote w t (data : TaleData) :
  voteReachable w →
  (overlay (overlayState w) t = 0 ∨ overlay (overlayState w) t = 1)
  ∧ (overlay (overlayState w) t = 1 ↔ t ∈ votedTales (overlayState w))
  ∧ pendingVotes w ⊆ votedTales (overlayState w)
  ∧ default 0 (tale_votes data) ≤ displayedVotes data (overlayState w)
    ≤ default 0 (tale_votes data) + 1.
Proof.
  intros [Hov Hpend]%voteInvariant_reachable.
  assert (∀ t', overlay (overlayState w) t' = 0 ∨ overlay (overlayState w) t' = 1)
    as H01.
  { intros t'. rewrite Hov. case_decide; [by right | by left]. }
  split_and!; [done | | done | |].
  - rewrite Hov. case_decide; [done |]. split; [lia | done].
  - unfold displayedVotes. destruct (H01 (tale_id data)); lia.
  - unfold displayedVotes. destruct (H01 (tale_id data)); lia.
Qed.

Lemma overlay_counts_at_most_one_vote_witness :
  let data := {| tale_id := "t1"; tale_votes := Some 41; tale_hasVoted := false |} in
  let w := {| overlayState := onMutate "t1" noVotes;
              pendingVotes := ∅ ∪ {["t1"]} |} in
  voteReachable w
  ∧ (overlay (overlayState w) "t1" = 1 ↔ "t1" ∈ votedTales (overlayState w))
  ∧ 41 ≤ displayedVotes data (overlayState w) ≤ 42.
Proof.
  intros data w.
  assert (voteReachable w) as Hr.
  { apply rtc_once. by apply (vote_clicked "t1" voteStart). }
  destruct (overlay_counts_at_most_one_vote w "t1" data Hr) as (_ & Hiff & _ & Hd).
  split_and!; [exact Hr | exact Hiff | exact (proj1 Hd) | exact (proj2 Hd)].
Defined.


End VoteMore.

(* ===================================================================== *)
(** ** Further properties of the story-map fetch *)
(* ===================================================================== *)

Section FetchMore.
Import Api ReaderView App Notions MoreNotions.

Variable param : string → option string.

Lemma settle_filter (P : Request → Prop) `{∀ x, Decision (P x)} r l l' :
  settle r l = Some l' →
  (P r → length (filter P l) = S (length (filter P l')))
  ∧ (¬ P r → filter P l' = filter P l).
Proof.
  revert l'. induction l as [|r' l IH]; intros l'; cbn [settle]; [done |].
  destruct (decide (r' = r)) as [->|Hne].
  - intros [= ->]. split; intros HP.
    + by rewrite filter_cons_True.
    + by rewrite filter_cons_False.
  - destruct (settle r l) as [l0|]; [|done]. intros [= <-].
    destruct (IH l0 eq_refl) as [IH1 IH2]. split; intros HP.
    + destruct (decide (P r')).
      * rewrite !filter_cons_True by done. simpl. by rewrite IH1.
      * rewrite !filter_cons_False by done. by apply IH1.
    + destruct (decide (P r')).
      * rewrite !filter_cons_True by done. by rewrite IH2.
      * rewrite !filter_cons_False by done. by apply IH2.
Qed.

Lemma filter_none (P : Request → Prop) `{∀ x, Decision (P x)} l :
  (∀ x, x ∈ l → ¬ P x) → filter P l = [].
Proof.
  induction l as [|x l IH]; intros Hl; [done |].
  rewrite filter_cons_False by (apply Hl; by left).
  apply IH. intros y Hy. apply Hl. by right.
Qed.

Lemma mapLoading_update k f st :
  mapLoading {| pathname := pathname st; instance := instance st;
                reader := update k f st; inFlight := inFlight st |}
  = if decide (k = instance st)
    then from_option (λ r, isMapLoading (f (mapState r))) false (reader st)
    else mapLoading st.
Proof.
  unfold mapLoading, update. cbn [reader].
  destruct (decide (k = instance st)); [|done]. by destruct (reader st).
Qed.

Lemma effectFetches_settle st k f i l pn rd :
  settle (k, f, i) (inFlight st) = Some l →
  ((k, f) = (instance st, EffectFetch) →
   length (effectFetches st)
   = S (length (effectFetches {| pathname := pn; instance := instance st;
                                 reader := rd; inFlight := l |})))
  ∧ ((k, f) ≠ (instance st, EffectFetch) →
     effectFetches {| pathname := pn; instance := instance st;
                      reader := rd; inFlight := l |}
     = effectFetches st).
Proof.
  intros Hs. unfold effectFetches. cbn [instance inFlight].
  apply (settle_filter (λ r : Request, r.1 = (instance st, EffectFetch))) in Hs.
  exact Hs.
Qed.

Lemma loadingInvariant_start : loadingInvariant start.
Proof. done. Qed.

Lemma loadingInvariant_step st e st' :
  fetchInvariant st → loadingInvariant st →
  step param st e = Some st' → loadingInvariant st'.
Proof.
  intros [Hle Hown] Hinv Hstep. unfold loadingInvariant in *.
  destruct e as [p| |k f i d|k f i]; cbn [step] in Hstep.
  - destruct (decide (Some p = pathname st)); injection Hstep as <-; [done |].
    assert (∀ x : Request, x ∈ inFlight st →
              ¬ x.1 = (S (instance st), EffectFetch)) as Hold.
    { intros [[k f] i] Hin [= -> ->]. apply Hle in Hin. lia. }
    unfold mount, effectFetches, mapLoading.
    destruct (param p) as [i|]; [destruct (requestable (Some i)) as [i'|] |];
      cbn [inFlight instance reader from_option mapState isMapLoading
           fetchStarted mountedMapState].
    + rewrite filter_app, (filter_none _ _ Hold). by rewrite filter_cons_True.
    + by rewrite (filter_none _ _ Hold).
    + by rewrite (filter_none _ _ Hold).
  - destruct (reader st) as [r|] eqn:Hr; [|done].
    destruct (requestable (reader_id r)) as [i|]; injection Hstep as <-; [|done].
    unfold effectFetches, mapLoading in *.
    cbn [inFlight instance reader]. unfold update.
    rewrite decide_True, Hr by done. rewrite Hr in Hinv.
    cbn [fmap option_fmap option_map from_option mapState fetchStarted] in *.
    rewrite filter_app, filter_cons_False, filter_nil, app_nil_r by (by intros [=]).
    done.
  - destruct (settle (k, f, i) (inFlight st)) as [l|] eqn:Hs; [|done].
    injection Hstep as <-.
    destruct (effectFetches_settle st k f i l (pathname st)
                (update k (fetchResolved f d) st) Hs) as [Hdec Hsame].
    change (mapLoading _) with
      (mapLoading {| pathname := pathname st; instance := instance st;
                     reader := update k (fetchResolved f d) st;
                     inFlight := inFlight st |}).
    rewrite mapLoading_update.
    destruct (decide (k = instance st)) as [->|Hk].
    + destruct f.
      * specialize (Hdec eq_refl). rewrite Hdec in Hinv.
        destruct (mapLoading st); [|done]. injection Hinv as ->.
        by destruct (reader st).
      * rewrite Hsame by (by intros [=]). rewrite Hinv. unfold mapLoading.
        by destruct (reader st).
    + rewrite Hsame; [done |]. intros [= ? _]. done.
  - destruct (settle (k, f, i) (inFlight st)) as [l|] eqn:Hs; [|done].
    injection Hstep as <-.
    destruct (effectFetches_settle st k f i l (pathname st)
                (update k (fetchRejected f) st) Hs) as [Hdec Hsame].
    change (mapLoading _) with
      (mapLoading {| pathname := pathname st; instance := instance st;
                     reader := update k (fetchRejected f) st;
                     inFlight := inFlight st |}).
    rewrite mapLoading_update.
    destruct (decide (k = instance st)) as [->|Hk].
    + destruct f.
      * specialize (Hdec eq_refl). rewrite Hdec in Hinv.
        destruct (mapLoading st); [|done]. injection Hinv as ->.
        by destruct (reader st).
      * rewrite Hsame by (by intros [=]). rewrite Hinv. unfold mapLoading.
        by destruct (reader st).
    + rewrite Hsame; [done |]. intros [= ? _]. done.
Qed.

Lemma loadingInvariant_run trace st :
  run param start trace = Some st → loadingInvariant st.
Proof.
  revert st. induction trace as [|e trace IH] using rev_ind; intros st.
  - intros [= <-]. apply loadingInvariant_start.
  - rewrite run_snoc. destruct (run param start trace) as [st0|] eqn:Hrun; [|done].
    cbn [mbind option_bind]. intros Hstep.
    eapply loadingInvariant_step; [by eapply fetchInvariant_run | by apply IH | done].
Qed.

(** X13. Whatever the navigations, contributions, answers and failures,
    the loading flag of the reader on display is set exactly while the
    request of its own effect is in flight, and there is at most one such
    request: the panel neither stays on "Loading story map..." after the
    request has settled nor leaves it before. *)
Theorem loading_flag_tracks_own_fetch trace st :
  run param start trace = Some st →
  (mapLoading st = true
   ↔ ∃ i, (instance st, EffectFetch, i) ∈ inFlight st)
  ∧ (length (effectFetches st) ≤ 1)%nat.
Proof.
  intros Hinv%loadingInvariant_run. unfold loadingInvariant in Hinv. split.
  - split.
    + intros Hl. rewrite Hl in Hinv.
      destruct (effectFetches st) as [|[[k f] i] l] eqn:Hf; [done |].
      assert (((k, f, i) : Request) ∈ effectFetches st) as Hin
        by (rewrite Hf; by left).
      unfold effectFetches in Hin.
      apply list_elem_of_filter in Hin as [[= -> ->] Hin]. by exists i.
    + intros [i Hin]. destruct (mapLoading st); [done |]. exfalso.
      assert (((instance st, EffectFetch, i) : Request) ∈ effectFetches st) as Hin'
        by by apply list_elem_of_filter.
      destruct (effectFetches st); [by apply elem_of_nil in Hin' | done].
  - rewrite Hinv. destruct (mapLoading st); lia.
Qed.

End FetchMore.

Lemma loading_flag_tracks_own_fetch_witness :
  ∃ st, App.run App.taleParam App.start
          [ App.Navigate "/tale/A"; App.ContributionSucceeded ] = Some st
        ∧ MoreNotions.mapLoading st = true
        ∧ (1%nat, ReaderView.EffectFetch, "A") ∈ App.inFlight st.
Proof.
  eexists. split; [reflexivity |].
  pose proof (loading_flag_tracks_own_fetch App.taleParam
                [ App.Navigate "/tale/A"; App.ContributionSucceeded ] _ eq_refl)
    as [Hiff _].
  split; [|by left]. apply Hiff. exists "A". by left.
Defined.

Section FetchPanel.
Import Api ReaderView ReaderPage App Notions MoreNotions.

Variable param : string → option string.
Variable dagre_node :
  list string → list (string * string) → string → StoryGraph.Position.

(** X14. When the request of the effect of the reader on display fails, or
    is answered with a map without nodes, the story-map panel of that
    reader shows "No story map available": not the loading state, and not
    a map shown before. When the refetch after a contribution fails, the
    reader keeps the map and the loading flag it had. *)
Theorem failed_map_fetch_shows_empty_panel st i isExpanded :
  (∀ st' r',
     step param st (Rejected (instance st) EffectFetch i) = Some st' →
     reader st' = Some r' →
     graphPanel dagre_node (reader_id r') (mapState r') isExpanded
     = StoryGraph.Empty "No story map available")
  ∧ (∀ d st' r',
       nodes d = [] →
       step param st (Resolved (instance st) EffectFetch i d) = Some st' →
       reader st' = Some r' →
       graphPanel dagre_node (reader_id r') (mapState r') isExpanded
       = StoryGraph.Empty "No story map available")
  ∧ (∀ st',
       step param st (Rejected (instance st) RefetchAfterContribution i)
       = Some st' →
       reader st' = reader st).
Proof.
  split_and!.
  - intros st' r'. cbn [step].
    destruct (settle _ (inFlight st)) as [l|]; [|done]. intros [= <-].
    cbn [reader]. unfold update. rewrite decide_True by done.
    destruct (reader st) as [r|]; [|done]. intros [= <-]. done.
  - intros d st' r' Hd. cbn [step].
    destruct (settle _ (inFlight st)) as [l|]; [|done]. intros [= <-].
    cbn [reader]. unfold update. rewrite decide_True by done.
    destruct (reader st) as [r|]; [|done]. intros [= <-].
    unfold graphPanel, StoryGraph.StoryGraph, StoryGraph.processedNodes.
    cbn [mapState fetchResolved storyMapData isMapLoading StoryGraph.truthy
         default from_option id].
    rewrite processed_empty by done. cbn [fst]. by rewrite orb_true_r.
  - intros st'. cbn [step].
    destruct (settle _ (inFlight st)) as [l|]; [|done]. intros [= <-].
    cbn [reader]. unfold update. rewrite decide_True by done.
    by destruct (reader st) as [[]|].
Qed.

End FetchPanel.

Lemma failed_map_fetch_shows_empty_panel_witness :
  let spot : list string → list (string * string) → string → StoryGraph.Position :=
    λ _ _ _, {| StoryGraph.x := 90; StoryGraph.y := 25 |} in
  let st := App.mount App.taleParam "/tale/A" App.start in
  ∃ st' r',
    App.step App.taleParam st (App.Rejected 1 ReaderView.EffectFetch "A") = Some st'
    ∧ App.reader st' = Some r'
    ∧ ReaderPage.graphPanel spot (App.reader_id r') (App.mapState r') false
      = StoryGraph.Empty "No story map available".
Proof.
  intros spot st. eexists _, _.
  assert (App.step App.taleParam st (App.Rejected 1 ReaderView.EffectFetch "A")
          = Some {| App.pathname := Some "/tale/A"; App.instance := 1;
                    App.reader :=
                      Some {| App.reader_id := Some "A";
                              App.mapState :=
                                {| ReaderView.storyMapData := None;
                                   ReaderView.isMapLoading := false |} |};
                    App.inFlight := [] |}) as Hstep by reflexivity.
  split_and!; [exact Hstep | reflexivity |].
  exact (proj1 (failed_map_fetch_shows_empty_panel App.taleParam spot st "A" false)
           _ _ Hstep eq_refl).
Defined.

(* ===================================================================== *)
(** ** The choices of the page *)
(* ===================================================================== *)

Section ChoicesMore.
Import ReaderView ReaderPage MoreNotions.

(** X16. After the tale data has arrived, the "Show more options..."
    button is on display exactly when the data has at least one choice and
    a total that exceeds the number of its choices; a total that is
    absent or zero is replaced by that number, which hides the button. The
    end-of-story section is on display exactly when the data has no
    choice, and never together with the choices. *)
Theorem show_more_after_tale_loaded (data : TaleResponse) (c : Choices) :
  (showsMoreButton (taleLoaded data c) = true
   ↔ ∃ l n, choices data = Some l ∧ l ≠ [] ∧ totalChoices data = Some n
            ∧ Z.of_nat (length l) < n)
  ∧ (showsEndOfStory (taleLoaded data c) = true
     ↔ choices data = None ∨ choices data = Some [])
  ∧ showsEndOfStory (taleLoaded data c) = negb (showsChoices (taleLoaded data c)).
Proof.
  unfold showsMoreButton, showsChoices, showsEndOfStory, taleLoaded, truthyNumber.
  cbn [displayedChoices shownTotal].
  destruct (choices data) as [l|]; cbn [default fmap option_fmap option_map];
    [destruct l as [|x l] |]; unfold id; cbn [length].
  - split_and!; [| |done].
    + split; [done |]. by intros (l & n & [= <-] & ? & _).
    + split; [by right | done].
  - split_and!; [| |done].
    + rewrite (bool_decide_eq_true_2 (0 < S (length l))%nat) by lia. cbn [andb].
      rewrite bool_decide_eq_true.
      destruct (totalChoices data) as [n|].
      * destruct (decide (n = 0)) as [->|Hn].
        -- destruct (decide (Z.of_nat (S (length l)) = 0)); [lia |].
           split; [lia |].
           intros (l' & n' & [= <-] & _ & [= <-] & Hlt). simpl in Hlt. lia.
        -- split.
           ++ intros Hlt. exists (x :: l), n. by split_and!.
           ++ intros (l' & n' & [= <-] & _ & [= <-] & Hlt). exact Hlt.
      * destruct (decide (Z.of_nat (S (length l)) = 0)); [lia |].
        split; [lia |].
        by intros (l' & n' & _ & _ & [=] & _).
    + rewrite bool_decide_eq_false_2 by done. split; [done |].
      by intros [|[=]].
  - split_and!; [| |done].
    + split; [done |]. by intros (l & n & [=] & _).
    + split; [by left | done].
Qed.

Lemma pagerInStep_step id p e p' :
  pagerInStep p → isPaging e → pagerStep id p e = Some p' →
  pagerInStep p'
  ∧ choicesPage (shown p')
    = choicesPage (shown p) + Z.of_nat (length (arrivedPages [e]))
  ∧ displayedChoices (shown p') = displayedChoices (shown p) ++ arrivedItems [e]
  ∧ arrivedPages [e]
    = countFrom (choicesPage (shown p) + 1) (length (arrivedPages [e]))
  ∧ shownTotal (shown p') = shownTotal (shown p).
Proof.
  unfold pagerInStep. intros Hin Hpaging.
  destruct e as [d| |n items|n]; [done | | |]; cbn [pagerStep].
  - destruct (requestable id); [|intros [= <-]; cbn; rewrite app_nil_r;
                                  split_and!; (done || lia)].
    destruct (isLoadingMoreChoices (shown p)) eqn:Hl.
    + intros [= <-]. rewrite Hl. cbn. rewrite app_nil_r. split_and!; (done || lia).
    + intros [= <-]. cbn. rewrite Hin, app_nil_r. split_and!; (done || lia).
  - destruct (isLoadingMoreChoices (shown p)); rewrite Hin; cbn [settlePage];
      [|done].
    destruct (decide (choicesPage (shown p) + 1 = n)) as [<-|Hne]; [|done].
    intros [= <-]. cbn. rewrite app_nil_r. split_and!; (done || lia).
  - destruct (isLoadingMoreChoices (shown p)); rewrite Hin; cbn [settlePage];
      [|done].
    destruct (decide (choicesPage (shown p) + 1 = n)) as [<-|Hne]; [|done].
    intros [= <-]. cbn. rewrite app_nil_r. split_and!; (done || lia).
Qed.

Lemma arrivedPages_cons e es : arrivedPages (e :: es) = arrivedPages [e] ++ arrivedPages es.
Proof. destruct e; cbn; done. Qed.

Lemma arrivedItems_cons e es : arrivedItems (e :: es) = arrivedItems [e] ++ arrivedItems es.
Proof. destruct e; cbn; by rewrite ?app_nil_r. Qed.

Lemma countFrom_app n k k' :
  countFrom n (k + k') = countFrom n k ++ countFrom (n + Z.of_nat k) k'.
Proof.
  revert n. induction k as [|k IH]; intros n; cbn [countFrom Nat.add app].
  - f_equal. lia.
  - rewrite IH. do 3 f_equal. lia.
Qed.

Lemma pages_in_order id es p p' :
  pagerInStep p → Forall isPaging es → pagerRun id p es = Some p' →
  pagerInStep p'
  ∧ choicesPage (shown p')
    = choicesPage (shown p) + Z.of_nat (length (arrivedPages es))
  ∧ displayedChoices (shown p') = displayedChoices (shown p) ++ arrivedItems es
  ∧ arrivedPages es
    = countFrom (choicesPage (shown p) + 1) (length (arrivedPages es))
  ∧ shownTotal (shown p') = shownTotal (shown p).
Proof.
  revert p. induction es as [|e es IH]; intros p Hin Hall.
  - intros [= <-]. cbn. rewrite app_nil_r. split_and!; (done || lia).
  - apply Forall_cons in Hall as [He Hall]. cbn [pagerRun].
    destruct (pagerStep id p e) as [p1|] eqn:Hstep; [|done].
    cbn [mbind option_bind]. intros Hrun.
    destruct (pagerInStep_step id p e p1 Hin He Hstep)
      as (Hin1 & Hp1 & Hd1 & Ha1 & Ht1).
    destruct (IH p1 Hin1 Hall Hrun) as (Hin' & Hp' & Hd' & Ha' & Ht').
    rewrite arrivedPages_cons, arrivedItems_cons, length_app.
    split_and!; [done | | | |].
    + rewrite Hp', Hp1. lia.
    + rewrite Hd', Hd1. by rewrite app_assoc.
    + rewrite countFrom_app. rewrite <- Ha1. f_equal.
      rewrite Ha' at 1. f_equal. rewrite Hp1. lia.
    + by rewrite Ht', Ht1.
Qed.

(** X15. From the arrival of the tale data on, and until other tale data
    arrives, the further pages are asked for one after the other: whatever
    the clicks, answers and failures, the pages that have arrived are
    pages 2, 3, ... without a gap or a repetition, the page counter is
    1 plus their number, the choices on display are those of the tale data
    followed by the items of these pages in order of arrival, and the
    total is the one the tale data set. *)
Theorem further_pages_arrive_in_order id (data : TaleResponse) es p' :
  Forall isPaging es →
  pagerRun id mountedPager (TaleLoaded data :: es) = Some p' →
  arrivedPages es = countFrom 2 (length (arrivedPages es))
  ∧ choicesPage (shown p') = 1 + Z.of_nat (length (arrivedPages es))
  ∧ displayedChoices (shown p') = default [] (choices data) ++ arrivedItems es
  ∧ shownTotal (shown p') = shownTotal (taleLoaded data mountedChoices).
Proof.
  intros Hall. cbn [pagerRun pagerStep mbind option_bind]. intros Hrun.
  destruct (pages_in_order id es _ p' (eq_refl : pagerInStep
              {| shown := taleLoaded data mountedChoices; requested := [] |})
              Hall Hrun) as (_ & Hp & Hd & Ha & Ht).
  split_and!; done.
Qed.

Lemma further_pages_arrive_in_order_witness :
  let c1 := {| choice_id := "c1"; choice_title := Some "Left"; choice_votes := 3;
               previewText := "You turn left." |} in
  let c2 := {| choice_id := "c2"; choice_title := None; choice_votes := 0;
               previewText := "You turn right." |} in
  let data := {| tale := {| tale_id := "t1"; tale_votes := Some 4;
                            tale_hasVoted := false |};
                 isDeleted := false; choices := Some [c1]; totalChoices := Some 2 |} in
  let es := [ LoadMoreClicked; LoadMoreClicked; PageRejected 2;
              LoadMoreClicked; PageResolved 2 [c2] ] in
  Forall isPaging es
  ∧ ∃ p', pagerRun (Some "t1") mountedPager (TaleLoaded data :: es) = Some p'
          ∧ choicesPage (shown p') = 2
          ∧ displayedChoices (shown p') = [c1; c2].
Proof.
  intros c1 c2 data es.
  assert (Forall isPaging es) as Hall by (repeat constructor).
  split; [exact Hall |]. eexists.
  assert (pagerRun (Some "t1") mountedPager (TaleLoaded data :: es)
          = Some {| shown := {| displayedChoices := [c1; c2]; choicesPage := 2;
                                isLoadingMoreChoices := false; shownTotal := 2 |};
                    requested := [] |}) as Hrun by reflexivity.
  split; [exact Hrun |].
  destruct (further_pages_arrive_in_order (Some "t1") data es _ Hall Hrun)
    as (_ & Hp & Hd & _).
  split; [exact Hp | exact Hd].
Defined.

Lemma pagerSettled_step id p e p' :
  pagerSettled p → pagerStep id p e = Some p' → pagerSettled p'.
Proof.
  unfold pagerSettled. intros Hin.
  destruct e as [d| |n items|n]; cbn [pagerStep].
  - by intros [= <-].
  - destruct (requestable id); [|by intros [= <-]].
    destruct (isLoadingMoreChoices (shown p)) eqn:Hl; intros [= <-]; cbn.
    + by rewrite Hl.
    + rewrite Hin. by eexists.
  - destruct (isLoadingMoreChoices (shown p)).
    + destruct Hin as [m ->]. cbn [settlePage].
      destruct (decide (m = n)); [|done]. by intros [= <-].
    + by rewrite Hin.
  - destruct (isLoadingMoreChoices (shown p)).
    + destruct Hin as [m ->]. cbn [settlePage].
      destruct (decide (m = n)); [|done]. by intros [= <-].
    + by rewrite Hin.
Qed.

(** X19. The pager never has two requests in flight: whatever the events,
    tale data arriving in between included, the loading flag of the
    button is set exactly while one request for a page is in flight, and a
    click while it is set changes nothing. *)
Theorem one_page_request_at_a_time id es p :
  pagerRun id mountedPager es = Some p →
  (isLoadingMoreChoices (shown p) = true ↔ ∃ n, requested p = [n])
  ∧ (isLoadingMoreChoices (shown p) = false ↔ requested p = [])
  ∧ (isLoadingMoreChoices (shown p) = true →
     pagerStep id p LoadMoreClicked = Some p).
Proof.
  intros Hrun.
  assert (pagerSettled p) as Hs.
  { revert p Hrun. induction es as [|e es IH] using rev_ind; intros p.
    - by intros [= <-].
    - assert (∀ q l l', pagerRun id q (l ++ l')
                        = q' ← pagerRun id q l; pagerRun id q' l') as Happ.
      { intros q l. revert q. induction l as [|x l IHl]; intros q l'; [done |].
        cbn [pagerRun app]. destruct (pagerStep id q x); [apply IHl | done]. }
      rewrite Happ. destruct (pagerRun id mountedPager es) as [p0|]; [|done].
      cbn [mbind option_bind pagerRun].
      destruct (pagerStep id p0 e) as [p1|] eqn:Hstep; [|done].
      intros [= <-]. eapply pagerSettled_step; [by apply IH | done]. }
  unfold pagerSettled in Hs. cbn [pagerStep].
  destruct (isLoadingMoreChoices (shown p)) eqn:Hl.
  - destruct Hs as [n Hn]. split_and!.
    + split; [by exists n | done].
    + split; [done | by rewrite Hn].
    + intros _. by destruct (requestable id).
  - split_and!; [| done | done].
    split; [done |]. intros [n Hn]. by rewrite Hs in Hn.
Qed.

Lemma one_page_request_at_a_time_witness :
  ∃ p, pagerRun (Some "t1") mountedPager [LoadMoreClicked; LoadMoreClicked] = Some p
       ∧ isLoadingMoreChoices (shown p) = true
       ∧ requested p = [2].
Proof.
  eexists.
  assert (pagerRun (Some "t1") mountedPager [LoadMoreClicked; LoadMoreClicked]
          = Some {| shown := {| displayedChoices := []; choicesPage := 1;
                                isLoadingMoreChoices := true; shownTotal := 0 |};
                    requested := [2] |}) as Hrun by reflexivity.
  split; [exact Hrun |].
  destruct (one_page_request_at_a_time (Some "t1") _ _ Hrun) as (Hiff & _ & _).
  split; [|reflexivity]. apply Hiff. by exists 2.
Defined.

End ChoicesMore.

(* ===================================================================== *)
(** ** The plain reader: history and paragraphs *)
(* ===================================================================== *)

Section TaleReaderMore.
Import JsText TaleReader MoreNotions.

Lemma handleGoBack_handleChoiceClick c s : handleGoBack (handleChoiceClick c s) = s.
Proof.
  destruct s as [cur h]. unfold handleGoBack, handleChoiceClick.
  cbn [taleHistory currentTaleId]. rewrite length_app. cbn [length].
  rewrite bool_decide_eq_true_2 by lia.
  replace (length h + 1 - 1)%nat with (length h) by lia.
  rewrite lookup_app_r by lia. rewrite Nat.sub_diag. cbn [lookup list_lookup].
  by rewrite take_app_length.
Qed.

Lemma handleGoBack_no_history s : taleHistory s = [] → handleGoBack s = s.
Proof. unfold handleGoBack. by intros ->. Qed.

Lemma go_back_all s cs :
  Nat.iter (length cs) handleGoBack (foldl (λ s c, handleChoiceClick c s) s cs) = s.
Proof.
  induction cs as [|c cs IH] using rev_ind; [done |].
  rewrite foldl_snoc, length_app. cbn [length].
  replace (length cs + 1)%nat with (S (length cs)) by lia.
  rewrite Nat.iter_succ_r. by rewrite handleGoBack_handleChoiceClick.
Qed.

(** X17. "Go Back" undoes the choices of the plain reader one by one: after
    any choices, as many clicks on it as there were choices restore the
    tale and the history from before them, the button is on display as
    long as a choice is left to undo, and from the mounted reader further
    clicks (the handler called without the button) stay on the first
    tale. *)
Theorem go_back_undoes_choices (s : State) (cs : list string) (k : nat) :
  Nat.iter (length cs) handleGoBack (foldl (λ s c, handleChoiceClick c s) s cs) = s
  ∧ length (taleHistory (foldl (λ s c, handleChoiceClick c s) s cs))
    = (length (taleHistory s) + length cs)%nat
  ∧ (∀ i, Nat.iter (length cs + k) handleGoBack
            (foldl (λ s c, handleChoiceClick c s) (mounted i) cs) = mounted i)
  ∧ (∀ i, showsGoBack (foldl (λ s c, handleChoiceClick c s) (mounted i) cs)
          = bool_decide (cs ≠ [])).
Proof.
  assert (∀ s0, length (taleHistory (foldl (λ s c, handleChoiceClick c s) s0 cs))
                = (length (taleHistory s0) + length cs)%nat) as Hlen.
  { intros s0. induction cs as [|c cs IH] using rev_ind; [cbn; lia |].
    rewrite foldl_snoc. cbn [handleChoiceClick taleHistory].
    rewrite !length_app, IH. cbn [length]. lia. }
  split_and!; [apply go_back_all | apply Hlen | |].
  - intros i. rewrite Nat.add_comm, Nat.iter_add, go_back_all.
    induction k as [|k IH]; [done |]. rewrite Nat.iter_succ, IH.
    by apply handleGoBack_no_history.
  - intros i. unfold showsGoBack. rewrite Hlen. cbn [mounted taleHistory length].
    destruct cs; [done |]. cbn [length].
    rewrite bool_decide_eq_true_2 by lia. by rewrite bool_decide_eq_true_2.
Qed.

Lemma split2_step c1 c2 a b s :
  split2 c1 c2 (String a (String b s))
  = if decide (a = c1 ∧ b = c2) then "" :: split2 c1 c2 s
    else cons_head a (split2 c1 c2 (String b s)).
Proof. reflexivity. Qed.

Lemma split2_nonempty c1 c2 s : split2 c1 c2 s ≠ [].
Proof.
  destruct s as [|a [|b s]]; [done | done |]. rewrite split2_step.
  destruct (decide _); [done |]. by destruct (split2 c1 c2 (String b s)).
Qed.

Lemma join2_cons c1 c2 x l :
  l ≠ [] → join2 c1 c2 (x :: l) = x +:+ String c1 (String c2 (join2 c1 c2 l)).
Proof. by destruct l. Qed.

Lemma join2_cons_head c1 c2 a l :
  l ≠ [] → join2 c1 c2 (cons_head a l) = String a (join2 c1 c2 l).
Proof. destruct l as [|h [|h' t]]; done. Qed.

Lemma join2_split2 c1 c2 s : join2 c1 c2 (split2 c1 c2 s) = s.
Proof.
  cut (join2 c1 c2 (split2 c1 c2 s) = s
       ∧ ∀ a, join2 c1 c2 (split2 c1 c2 (String a s)) = String a s);
    [by intros [? _] |].
  induction s as [|b s [IH1 IH2]]; [done |].
  split; [apply IH2 |]. intros a. rewrite split2_step.
  destruct (decide (a = c1 ∧ b = c2)) as [[-> ->]|_].
  - rewrite join2_cons by apply split2_nonempty. by rewrite IH1.
  - rewrite join2_cons_head by apply split2_nonempty. by rewrite IH2.
Qed.

Lemma split2_first_piece c1 c2 b s h t :
  split2 c1 c2 (String b s) = h :: t → h = "" ∨ ∃ h', h = String b h'.
Proof.
  destruct s as [|b' s]; [|rewrite split2_step].
  - intros [= <- _]. right. by eexists.
  - destruct (decide _); [intros [= <- _]; by left |].
    destruct (split2 c1 c2 (String b' s)); intros [= <- _]; right; by eexists.
Qed.

Lemma split2_pieces c1 c2 s :
  Forall (λ p, contains2 c1 c2 p = false) (split2 c1 c2 s).
Proof.
  cut (Forall (λ p, contains2 c1 c2 p = false) (split2 c1 c2 s)
       ∧ ∀ a, Forall (λ p, contains2 c1 c2 p = false) (split2 c1 c2 (String a s)));
    [by intros [? _] |].
  induction s as [|b s [IH1 IH2]].
  - split; [by constructor |]. intros a. by constructor.
  - split; [apply IH2 |]. intros a. rewrite split2_step.
    destruct (decide (a = c1 ∧ b = c2)) as [[-> ->]|Hne].
    + by constructor.
    + specialize (IH2 b).
      destruct (split2 c1 c2 (String b s)) as [|h t] eqn:Hsplit;
        [by apply split2_nonempty in Hsplit |].
      apply Forall_cons in IH2 as [Hh Ht]. cbn [cons_head].
      constructor; [|done].
      destruct (split2_first_piece _ _ _ _ _ _ Hsplit) as [->|[h' ->]]; [done |].
      change (contains2 c1 c2 (String a (String b h')))
        with (if decide (a = c1 ∧ b = c2) then true
              else contains2 c1 c2 (String b h')).
      by rewrite decide_False.
Qed.

(** X18. The paragraphs of the plain reader are the content cut at its
    blank lines and nothing else: there is at least one paragraph, no
    paragraph contains two line feeds in a row, and the paragraphs put
    back together with two line feeds between them are the content, so no
    character of the content is lost or added. *)
Theorem paragraphs_rejoin (content : string) :
  paragraphs content ≠ []
  ∧ Forall (λ p, contains2 LF LF p = false) (paragraphs content)
  ∧ join2 LF LF (paragraphs content) = content.
Proof.
  unfold paragraphs.
  split_and!; [apply split2_nonempty | apply split2_pieces | apply join2_split2].
Qed.

End TaleReaderMore.
